(** * letterpwn: move enumeration and move scoring

    A shallow embedding of [lib/letterpress-moves.js] (with the adjacency
    table of [lib/adjacent.js]) and the properties of its move generator
    ([getBoardPositionMap], [kCombinations], [flattenCombos],
    [getMovesForBoard]) and of its move scorer ([getTopMoves], [byBestMove],
    [filterMoves], [getVulnerability]).

    JavaScript numbers are modelled as [Z]: every number the module handles
    is an integer (bit values, bit masks, counts, ranks).  The bitwise
    operators of JavaScript work on 32-bit signed integers; this wrap-around
    is written out in [JS.ToInt32]. *)

From Stdlib Require Import ZArith Lia List Ascii String Bool Permutation Sorted.
From stdpp Require Import gmap strings list.

Local Open Scope Z_scope.

(** ** JavaScript integers and bitwise operators *)

Module JS.

(** ECMAScript ToInt32 on an integral number: reduce modulo 2^32 and read
    the result as a two's complement 32-bit value. *)
Definition ToInt32 (z : Z) : Z :=
  let u := z mod 2 ^ 32 in
  if 2 ^ 31 <=? u then u - 2 ^ 32 else u.

(** [a & b] *)
Definition band (a b : Z) : Z := Z.land (ToInt32 a) (ToInt32 b).

(** [a | b] *)
Definition bor (a b : Z) : Z := Z.lor (ToInt32 a) (ToInt32 b).

(** [~a] *)
Definition bnot (a : Z) : Z := Z.lnot (ToInt32 a).

(** Truthiness of a number used as a condition: every number but 0. *)
Definition truthy (z : Z) : bool := negb (z =? 0).

(** [a || b] on numbers: the first operand when it is truthy. *)
Definition or_else (a b : Z) : Z := if truthy a then a else b.

End JS.

(** A thrown exception aborts the whole call; the only fault the module can
    raise is the [TypeError] of reading a property of [undefined]. *)
Inductive result (A : Type) : Type :=
| Ok (a : A)
| TypeError.
Arguments Ok {A} a.
Arguments TypeError {A}.

Definition bind {A B} (r : result A) (k : A -> result B) : result B :=
  match r with
  | Ok a => k a
  | TypeError => TypeError
  end.

Notation "x <- r ;; k" := (bind r (fun x => k))
  (at level 100, r at next level, right associativity).

(** ** The bit utilities: [public/javascripts/letterpress-bitmask.js]

    The move module reads [countBits], [getProtectedBitMask] and [adjacent]
    from this collaborator.  The adjacency table is [lib/adjacent.js]. *)

Module lpBitMask.

(** Pairs of a board position and its adjacent positions, as bit masks
    over bits 0..24 of the 5 x 5 board. *)
Definition adjacent : list (Z * Z) :=
  [ (1, 34); (2, 69); (4, 138); (8, 276); (16, 520);
    (32, 1089); (64, 2210); (128, 4420); (256, 8840); (512, 16656);
    (1024, 34848); (2048, 70720); (4096, 141440); (8192, 282880);
    (16384, 532992);
    (32768, 1115136); (65536, 2263040); (131072, 4526080);
    (262144, 9052160); (524288, 17055744);
    (1048576, 2129920); (2097152, 5308416); (4194304, 10616832);
    (8388608, 21233664); (16777216, 8912896) ].

(** Modelled from the spec: [countBits] is not part of the sources at
    hand; the spec gives it as the bit population count.  It counts the
    set bits of the 32-bit pattern of its argument. *)
Definition countBits (x : Z) : Z :=
  Z.of_nat
    (length (List.filter (fun i => Z.testbit x (Z.of_nat i)) (seq 0 32))).

(** Modelled from the spec: [getProtectedBitMask] is not part of the
    sources at hand; the spec gives its result as the subset of the
    ownership mask where every adjacent position, per the adjacency
    table, is also set in the ownership mask. *)
Definition getProtectedBitMask (bitMask : Z) : Z :=
  fold_left
    (fun protectedBitMask (a : Z * Z) =>
       if JS.truthy (JS.band (fst a) bitMask)
          && (JS.band (snd a) bitMask =? snd a)
       then JS.bor protectedBitMask (fst a)
       else protectedBitMask)
    adjacent 0.

End lpBitMask.

(** The constants of [lib/letterpress-config.js] that the module reads;
    their values are not part of the sources at hand and stay abstract. *)
Record Config : Type := {
  MAX_BITMASK : Z;
  POSITIONS_TO_WIN : Z
}.

(** ** Data *)

(** A word struct is the array [[word, letters, frequency]]. *)
Record WordStruct : Type := {
  ws_word : string;        (* wordStruct[0] *)
  ws_letters : string;     (* wordStruct[1] *)
  ws_freq : Z              (* wordStruct[2] *)
}.

(** A move is the array [[wordStruct, bitmap]]. *)
Definition Move : Type := (WordStruct * Z)%type.

(** A move scored for a game state; the fields are in the order of the
    array that [getTopMoves] builds. *)
Record ScoredMove : Type := {
  protectedDiff : Z;       (* move[0] *)
  countDiff : Z;           (* move[1] *)
  gameEnder : Z;           (* move[2] *)
  newOursBitMask : Z;      (* move[3] *)
  newTheirsBitMask : Z;    (* move[4] *)
  wordBitMask : Z;         (* move[5] *)
  wordStruct : WordStruct; (* move[6] *)
  vulnerability : Z        (* move[7] *)
}.

(** An entry of the list that [getTopMoves] returns:
    [["word", wordBitMask, newOursBitMask, newTheirsBitMask, gameEnder]]. *)
Record TopMove : Type := {
  tm_word : string;
  tm_wordBitMask : Z;
  tm_newOursBitMask : Z;
  tm_newTheirsBitMask : Z;
  tm_gameEnder : Z
}.

(** ** Move generation *)

(** [getBoardPositionMap]: the loop over the board, from position [i]. *)
Fixpoint boardLoop (i : nat) (board : list ascii)
    (boardMap : gmap ascii (list Z)) : gmap ascii (list Z) :=
  match board with
  | [] => boardMap
  | c :: rest =>
      let boardMap1 :=
        match boardMap !! c with
        | None => <[c := []]> boardMap
        | Some _ => boardMap
        end in
      boardLoop (S i) rest
        (alter (fun l => l ++ [2 ^ Z.of_nat i]) c boardMap1)
  end.

Definition getBoardPositionMap (board : string) : gmap ascii (list Z) :=
  boardLoop 0 (list_ascii_of_string board) ∅.

(** The inner function [kc] of [kCombinations]; [bits] is the part of the
    array from index [start] on, and the result is what the call pushes. *)
Fixpoint kc (count : Z) (bits : list Z) (curr : Z) : list Z :=
  match bits with
  | [] => []
  | b :: rest =>
      let myCurr := JS.bor curr b in
      (if count =? 1 then [myCurr] else kc (count - 1) rest myCurr)
        ++ kc count rest curr
  end.

(** [kCombinations]; [bits] is [None] when the caller passes [undefined],
    and then reading [bits.length] throws. *)
Definition kCombinations (bits : option (list Z)) (count : Z)
    : result (list Z) :=
  if count =? 0 then Ok []
  else match bits with
       | None => TypeError
       | Some bits => Ok (kc count bits 0)
       end.

(** The inner function [pc] of [flattenCombos]; [posCombos] is the part of
    the array from index [i] on, which is not empty when [pc] is called. *)
Fixpoint pc (posCombos : list (list Z)) (curr : Z) : list Z :=
  match posCombos with
  | [] => []
  | opts :: rest =>
      flat_map
        (fun o =>
           let myCurr := JS.bor curr o in
           match rest with
           | [] => [myCurr]
           | _ :: _ => pc rest myCurr
           end)
        opts
  end.

(** [flattenCombos]; the first [curr] is the empty array, which [|] reads
    as 0. *)
Definition flattenCombos (posCombos : list (list Z)) : list Z :=
  pc posCombos 0.

(** [_.countBy(letters, _.identity)]: the keys in order of creation. *)
Fixpoint countBy_add (c : ascii) (h : list (ascii * Z)) : list (ascii * Z) :=
  match h with
  | [] => [(c, 1)]
  | (k, n) :: h' =>
      if decide (k = c) then (k, n + 1) :: h'
      else (k, n) :: countBy_add c h'
  end.

Definition countBy (letters : string) : list (ascii * Z) :=
  fold_left (fun h c => countBy_add c h) (list_ascii_of_string letters) [].

(** The order of [for (c in letterCounts)]: keys that are array indices
    (here the digits) in ascending order, then the others as created. *)
Definition isIndexKey (c : ascii) : bool :=
  ((48 <=? nat_of_ascii c) && (nat_of_ascii c <=? 57))%nat.

Definition digitKeys : list ascii :=
  map ascii_of_nat (seq 48 10).

Definition forIn (h : list (ascii * Z)) : list (ascii * Z) :=
  flat_map (fun d => List.filter (fun kv => bool_decide (fst kv = d)) h)
           digitKeys
  ++ List.filter (fun kv => negb (isIndexKey (fst kv))) h.

(** The loop that fills [posCombos] for one word. *)
Fixpoint posCombosLoop (boardPositionMap : gmap ascii (list Z))
    (letterCounts : list (ascii * Z)) : result (list (list Z)) :=
  match letterCounts with
  | [] => Ok []
  | (c, n) :: rest =>
      combos <- kCombinations (boardPositionMap !! c) n ;;
      more <- posCombosLoop boardPositionMap rest ;;
      Ok (combos :: more)
  end.

Definition movesForWord (boardPositionMap : gmap ascii (list Z))
    (wordStruct : WordStruct) : result (list Move) :=
  let letterCounts := countBy (ws_letters wordStruct) in
  posCombos <- posCombosLoop boardPositionMap (forIn letterCounts) ;;
  Ok (map (fun bitmap => (wordStruct, bitmap)) (flattenCombos posCombos)).

Fixpoint movesLoop (boardPositionMap : gmap ascii (list Z))
    (wordStructs : list WordStruct) : result (list Move) :=
  match wordStructs with
  | [] => Ok []
  | wordStruct :: rest =>
      here <- movesForWord boardPositionMap wordStruct ;;
      more <- movesLoop boardPositionMap rest ;;
      Ok (here ++ more)
  end.

Definition getMovesForBoard (board : string) (wordStructs : list WordStruct)
    : result (list Move) :=
  movesLoop (getBoardPositionMap board) wordStructs.

(** ** Move scoring *)

Definition getVulnerability (bitMask : Z) : Z :=
  fold_left
    (fun vulnerability (a : Z * Z) =>
       if JS.truthy (JS.band (fst a) bitMask)
       then vulnerability
            + lpBitMask.countBits (JS.band (snd a) (JS.bnot bitMask))
       else vulnerability)
    lpBitMask.adjacent 0.

(** The function mapped over the moves in [getTopMoves]. *)
Definition scoreMove (lpConfig : Config) (oursBitMask theirsBitMask : Z)
    (move : Move) : ScoredMove :=
  let theirsProtectedBitMask := lpBitMask.getProtectedBitMask theirsBitMask in
  let wordStruct := fst move in
  let wordBitMask := snd move in
  let newOursBitMask :=
    JS.bor (JS.band wordBitMask (JS.bnot theirsProtectedBitMask)) oursBitMask in
  let newOursProtectedBitMask := lpBitMask.getProtectedBitMask newOursBitMask in
  let newTheirsBitMask := JS.band theirsBitMask (JS.bnot newOursBitMask) in
  let newTheirsProtectedBitMask :=
    lpBitMask.getProtectedBitMask newTheirsBitMask in
  let newOursCount := lpBitMask.countBits newOursBitMask in
  let newTheirsCount := lpBitMask.countBits newTheirsBitMask in
  let newOursProtectedCount := lpBitMask.countBits newOursProtectedBitMask in
  let newTheirsProtectedCount :=
    lpBitMask.countBits newTheirsProtectedBitMask in
  let vulnerability := getVulnerability newOursProtectedBitMask in
  let gameEnder :=
    if JS.bor newOursBitMask newTheirsBitMask =? MAX_BITMASK lpConfig
    then (if POSITIONS_TO_WIN lpConfig <=? newOursCount then 1 else -1)
    else 0 in
  {| protectedDiff := newOursProtectedCount - newTheirsProtectedCount;
     countDiff := newOursCount - newTheirsCount;
     gameEnder := gameEnder;
     newOursBitMask := newOursBitMask;
     newTheirsBitMask := newTheirsBitMask;
     wordBitMask := wordBitMask;
     wordStruct := wordStruct;
     vulnerability := vulnerability |}.

(** The comparator for moves. *)
Definition byBestMove (a b : ScoredMove) : Z :=
  JS.or_else (gameEnder b - gameEnder a)
    (JS.or_else (protectedDiff b - protectedDiff a)
       (JS.or_else (vulnerability a - vulnerability b)
          (JS.or_else (countDiff b - countDiff a)
             (ws_freq (wordStruct a) - ws_freq (wordStruct b))))).

(** [Array.prototype.sort] with a comparator.  The language leaves the
    algorithm to the engine; for a consistent comparator every stable sort
    returns the list computed here, by stable insertion from the right.
    The properties below only use that the result is sorted for the
    comparator and holds the moves of the argument. *)
Fixpoint sortInsert {A} (cmp : A -> A -> Z) (x : A) (l : list A) : list A :=
  match l with
  | [] => [x]
  | y :: l' =>
      if cmp x y <=? 0 then x :: y :: l' else y :: sortInsert cmp x l'
  end.

Definition sort {A} (cmp : A -> A -> Z) (l : list A) : list A :=
  foldr (sortInsert cmp) [] l.

(** The names that every object inherits from [Object.prototype]; reading
    one of them from the fresh object [seen] gives a truthy value. *)
Definition objectPrototypeKeys : list string :=
  [ "constructor"; "toString"; "toLocaleString"; "valueOf";
    "hasOwnProperty"; "isPrototypeOf"; "propertyIsEnumerable";
    "__proto__"; "__defineGetter__"; "__defineSetter__";
    "__lookupGetter__"; "__lookupSetter__" ]%string.

(** [seen[word]] read as a condition. *)
Definition seenTruthy (seen : gset string) (word : string) : bool :=
  bool_decide (word ∈ seen) || bool_decide (word ∈ objectPrototypeKeys).

(** The filter of [filterMoves], with the two variables it updates. *)
Fixpoint filterLoop (latestScore : Z) (seen : gset string)
    (moves : list ScoredMove) : list ScoredMove :=
  match moves with
  | [] => []
  | move :: rest =>
      let word := ws_word (wordStruct move) in
      if seenTruthy seen word
         || (protectedDiff move + countDiff move =? latestScore)
      then filterLoop latestScore seen rest
      else move :: filterLoop (protectedDiff move + countDiff move)
                              ({[word]} ∪ seen) rest
  end.

Definition filterMoves (moves : list ScoredMove) : list ScoredMove :=
  filterLoop 0 ∅ moves.

Definition toTopMove (move : ScoredMove) : TopMove :=
  {| tm_word := ws_word (wordStruct move);
     tm_wordBitMask := wordBitMask move;
     tm_newOursBitMask := newOursBitMask move;
     tm_newTheirsBitMask := newTheirsBitMask move;
     tm_gameEnder := gameEnder move |}.

(** The scored moves that [getTopMoves] keeps, before the last [map]. *)
Definition topScoredMoves (lpConfig : Config) (moves : list Move)
    (oursBitMask theirsBitMask : Z) : list ScoredMove :=
  let movesScoredForGameState :=
    map (scoreMove lpConfig oursBitMask theirsBitMask) moves in
  take 19 (filterMoves (sort byBestMove movesScoredForGameState)).

Definition getTopMoves (lpConfig : Config) (moves : list Move)
    (oursBitMask theirsBitMask : Z) : list TopMove :=
  map toTopMove (topScoredMoves lpConfig moves oursBitMask theirsBitMask).

(** ** Definitions used to state the properties *)

(** A configuration for the 5 x 5 board: all 25 bits set, and the majority
    of the squares to win. *)
Definition boardConfig : Config :=
  {| MAX_BITMASK := 33554431; POSITIONS_TO_WIN := 13 |}.

Definition word_cab : WordStruct :=
  {| ws_word := "cab"; ws_letters := "cab"; ws_freq := 1 |}.

Definition word_cad : WordStruct :=
  {| ws_word := "cad"; ws_letters := "cad"; ws_freq := 2 |}.

(** [x] is strictly better than [y] under the tie-break chain: gameEnder
    descending, protectedDiff descending, vulnerability ascending,
    countDiff descending, commonness rank ascending. *)
Definition strictlyBetter (x y : ScoredMove) : Prop :=
  gameEnder x > gameEnder y
  \/ (gameEnder x = gameEnder y
      /\ (protectedDiff x > protectedDiff y
          \/ (protectedDiff x = protectedDiff y
              /\ (vulnerability x < vulnerability y
                  \/ (vulnerability x = vulnerability y
                      /\ (countDiff x > countDiff y
                          \/ (countDiff x = countDiff y
                              /\ ws_freq (wordStruct x)
                                 < ws_freq (wordStruct y)))))))).

(** [a] may come before [b]: the comparator does not ask for a swap. *)
Definition mayPrecede (a b : ScoredMove) : Prop := byBestMove a b <= 0.

(** The word text of a scored move, [move[6][0]]. *)
Definition wordOf (move : ScoredMove) : string := ws_word (wordStruct move).

(** The keys of a histogram and the sum of its counts. *)
Definition keys (h : list (ascii * Z)) : list ascii := map fst h.

Definition total (h : list (ascii * Z)) : Z := fold_right Z.add 0 (map snd h).

(** The adjacent positions of the board position [i], from the table. *)
Definition adjacentOf (i : nat) : Z := snd (nth i lpBitMask.adjacent (0, 0)).

(** The sum, over the set bits [b] of [mask] on the board, of the
    population count of [adjacent(b) & ~claimed]. *)
Definition neighboursOutside (mask claimed : Z) : Z :=
  fold_right Z.add 0
    (map (fun i =>
            if Z.testbit mask (Z.of_nat i)
            then lpBitMask.countBits (Z.land (adjacentOf i) (Z.lnot claimed))
            else 0)
         (seq 0 25)).

(** The binomial coefficient, by Pascal's rule. *)
Fixpoint choose (n k : nat) : nat :=
  match n, k with
  | _, O => 1
  | O, S _ => 0
  | S n', S k' => choose n' k' + choose n' (S k')
  end.

(** The selections of [k] elements of [l], in the order of [l], listed in
    lexicographic order of the indices. *)
Fixpoint combs {A} (k : nat) (l : list A) {struct l} : list (list A) :=
  match k with
  | O => [[]]
  | S k' =>
      match l with
      | [] => []
      | x :: r => map (cons x) (combs k' r) ++ combs k r
      end
  end.

(** The union of a list of masks. *)
Definition union (s : list Z) : Z := fold_right Z.lor 0 s.

(** [z] is the value of a single bit at a position below [n]. *)
Definition isBit (n : nat) (z : Z) : Prop :=
  exists i : nat, (i < n)%nat /\ z = 2 ^ Z.of_nat i.

(** The claim on [kCombinations] as it is worded, for a list of distinct
    single-bit values. *)
Definition kCombinations_claim (positions : list Z) (k : nat) : Prop :=
  exists masks,
    kCombinations (Some positions) (Z.of_nat k) = Ok masks
    /\ length masks = choose (length positions) k
    /\ List.NoDup masks
    /\ (forall m, In m masks ->
         exists s, s `sublist_of` positions /\ length s = k
                   /\ List.NoDup s /\ m = union s)
    /\ (k = 0%nat -> masks = [])
    /\ ((length positions < k)%nat -> masks = []).

(** [z] is the bit value of a position of [board] that holds the letter
    [c]. *)
Definition bitAt (board : list ascii) (c : ascii) (z : Z) : Prop :=
  exists j : nat, z = 2 ^ Z.of_nat j /\ nth_error board j = Some c.

(** The position map after the first [i] squares of [board]: every list
    holds, once each, bit values of squares below [i] with its letter. *)
Definition boardInv (board : list ascii) (i : nat)
    (boardMap : gmap ascii (list Z)) : Prop :=
  forall c l, boardMap !! c = Some l ->
    List.NoDup l
    /\ forall z, In z l ->
         exists j : nat, (j < i)%nat /\ z = 2 ^ Z.of_nat j
                         /\ nth_error board j = Some c.

(** The running total that [filterMoves] compares: [move[0] + move[1]]. *)
Definition scoreOf (move : ScoredMove) : Z :=
  protectedDiff move + countDiff move.

(** The bit values of the squares of [board] that hold the letter [c], in
    board order; the first square of [board] is position [i]. *)
Fixpoint letterBits (c : ascii) (i : nat) (board : list ascii) : list Z :=
  match board with
  | [] => []
  | x :: rest =>
      (if decide (x = c) then [2 ^ Z.of_nat i] else [])
        ++ letterBits c (S i) rest
  end.

(** One choice from every group, in depth-first order of the groups. *)
Fixpoint cartesian {A} (groups : list (list A)) : list (list A) :=
  match groups with
  | [] => [[]]
  | g :: rest => flat_map (fun o => map (cons o) (cartesian rest)) g
  end.

(** The product of a list of numbers. *)
Definition product (l : list nat) : nat := fold_right Nat.mul 1%nat l.

(** A histogram written out: every key as often as it counts. *)
Definition expand (h : list (ascii * Z)) : list ascii :=
  flat_map (fun kv => repeat (fst kv) (Z.to_nat (snd kv))) h.

(** Squares [i] and [j] of the 5 x 5 board are side by side in a row or
    in a column; squares are numbered row by row. *)
Definition gridAdjacent (i j : nat) : bool :=
  (((i / 5 =? j / 5) && ((i mod 5 + 1 =? j mod 5) || (j mod 5 + 1 =? i mod 5)))
   || ((i mod 5 =? j mod 5) && ((i / 5 + 1 =? j / 5) || (j / 5 + 1 =? i / 5))))%nat.

(** The bit value of the square [j]: [Math.pow(2, j)]. *)
Definition bitOf (j : nat) : Z := 2 ^ Z.of_nat j.

(** The number of ways to lay the letters [letters] on [board]: for every
    distinct letter, choose as many of its squares as the word has the
    letter. *)
Definition placements (board letters : list ascii) : nat :=
  product
    (map (fun c => choose (count_occ ascii_dec board c)
                          (count_occ ascii_dec letters c))
         (nodup ascii_dec letters)).

(** The bit values of the squares [squares] that hold the letter [c], in
    board order. *)
Definition selection (board : list ascii) (squares : list nat) (c : ascii)
    : list Z :=
  List.filter (fun z => bool_decide (z ∈ map bitOf squares))
              (letterBits c 0 board).

(** * Properties *)

(** ** Facts on the 32-bit operators *)

Section Int32.

Lemma ToInt32_range z : - 2 ^ 31 <= JS.ToInt32 z < 2 ^ 31.
Proof.
  unfold JS.ToInt32.
  pose proof (Z.mod_pos_bound z (2 ^ 32) ltac:(lia)).
  destruct (Z.leb_spec (2 ^ 31) (z mod 2 ^ 32)); lia.
Qed.

Lemma ToInt32_mod z : JS.ToInt32 z mod 2 ^ 32 = z mod 2 ^ 32.
Proof.
  unfold JS.ToInt32.
  destruct (Z.leb_spec (2 ^ 31) (z mod 2 ^ 32)).
  - replace (z mod 2 ^ 32 - 2 ^ 32) with (z mod 2 ^ 32 + (-1) * 2 ^ 32) by lia.
    rewrite Z.mod_add by lia. apply Z.mod_mod. lia.
  - apply Z.mod_mod. lia.
Qed.

Lemma ToInt32_small a : - 2 ^ 31 <= a < 2 ^ 31 -> JS.ToInt32 a = a.
Proof.
  intros Ha. unfold JS.ToInt32.
  destruct (Z.ltb_spec a 0).
  - replace (a mod 2 ^ 32) with (a + 2 ^ 32).
    + destruct (Z.leb_spec (2 ^ 31) (a + 2 ^ 32)); lia.
    + apply Z.mod_unique with (q := -1); lia.
  - rewrite Z.mod_small by lia.
    destruct (Z.leb_spec (2 ^ 31) a); lia.
Qed.

Lemma int32_high_bits a i :
  - 2 ^ 31 <= a < 2 ^ 31 -> 31 <= i -> Z.testbit a i = (a <? 0).
Proof.
  intros Ha Hi. destruct (Z.ltb_spec a 0).
  - apply Z.bits_above_log2_neg; [lia|].
    destruct (Z.eq_dec (Z.pred (- a)) 0) as [->|Hne]; [simpl; lia|].
    apply Z.lt_le_trans with 31; [|lia].
    apply Z.log2_lt_pow2; lia.
  - destruct (Z.eq_dec a 0) as [->|Hne]; [apply Z.bits_0|].
    apply Z.bits_above_log2; [lia|].
    apply Z.lt_le_trans with 31; [|lia].
    apply Z.log2_lt_pow2; lia.
Qed.

(** Bit [i] of [ToInt32 z]: the low 31 bits are those of [z], and bit 31
    is the sign, repeated upwards. *)
Lemma ToInt32_testbit z i :
  0 <= i -> Z.testbit (JS.ToInt32 z) i = Z.testbit z (Z.min i 31).
Proof.
  intros Hi.
  assert (Hlow : forall j, 0 <= j < 32 ->
                   Z.testbit (JS.ToInt32 z) j = Z.testbit z j).
  { intros j Hj.
    rewrite <- (Z.mod_pow2_bits_low (JS.ToInt32 z) 32 j) by lia.
    rewrite ToInt32_mod. apply Z.mod_pow2_bits_low. lia. }
  destruct (Z.lt_ge_cases i 31).
  - rewrite Z.min_l by lia. apply Hlow. lia.
  - rewrite Z.min_r by lia. rewrite <- (Hlow 31) by lia.
    pose proof (ToInt32_range z).
    rewrite !int32_high_bits by lia. reflexivity.
Qed.

Lemma band_testbit a b i :
  0 <= i ->
  Z.testbit (JS.band a b) i
  = Z.testbit a (Z.min i 31) && Z.testbit b (Z.min i 31).
Proof.
  intros. unfold JS.band. rewrite Z.land_spec, !ToInt32_testbit by lia.
  reflexivity.
Qed.

Lemma bor_testbit a b i :
  0 <= i ->
  Z.testbit (JS.bor a b) i
  = Z.testbit a (Z.min i 31) || Z.testbit b (Z.min i 31).
Proof.
  intros. unfold JS.bor. rewrite Z.lor_spec, !ToInt32_testbit by lia.
  reflexivity.
Qed.

Lemma bnot_testbit a i :
  0 <= i -> Z.testbit (JS.bnot a) i = negb (Z.testbit a (Z.min i 31)).
Proof.
  intros. unfold JS.bnot. rewrite Z.lnot_spec, !ToInt32_testbit by lia.
  reflexivity.
Qed.

(** A number is a 32-bit integer when its bits from 31 upwards agree. *)
Lemma int32_of_bits a :
  (forall i, 31 <= i -> Z.testbit a i = Z.testbit a 31) ->
  - 2 ^ 31 <= a < 2 ^ 31.
Proof.
  intros Hbits.
  replace a with (JS.ToInt32 a); [apply ToInt32_range|].
  apply Z.bits_inj'. intros i Hi. rewrite ToInt32_testbit by lia.
  destruct (Z.lt_ge_cases i 31).
  - rewrite Z.min_l by lia. reflexivity.
  - rewrite Z.min_r by lia. symmetry. apply Hbits. lia.
Qed.

Lemma band_range a b : - 2 ^ 31 <= JS.band a b < 2 ^ 31.
Proof.
  apply int32_of_bits. intros i Hi.
  rewrite !band_testbit by lia. rewrite !Z.min_r by lia. reflexivity.
Qed.

Lemma bor_range a b : - 2 ^ 31 <= JS.bor a b < 2 ^ 31.
Proof.
  apply int32_of_bits. intros i Hi.
  rewrite !bor_testbit by lia. rewrite !Z.min_r by lia. reflexivity.
Qed.

End Int32.

(** ** The scored move *)

Section Scoring.

Variable lpConfig : Config.
Variables oursBitMask theirsBitMask : Z.

Lemma newOurs_int32 move :
  - 2 ^ 31 <= newOursBitMask (scoreMove lpConfig oursBitMask theirsBitMask move)
    < 2 ^ 31.
Proof. apply bor_range. Qed.

Lemma newTheirs_int32 move :
  - 2 ^ 31
  <= newTheirsBitMask (scoreMove lpConfig oursBitMask theirsBitMask move)
  < 2 ^ 31.
Proof. apply band_range. Qed.

End Scoring.

(** C9: the ownership masks of a scored move are disjoint, under the [&]
    of the code and as sets of bits. *)
Theorem scoreMove_masks_disjoint lpConfig oursBitMask theirsBitMask move :
  let s := scoreMove lpConfig oursBitMask theirsBitMask move in
  JS.band (newOursBitMask s) (newTheirsBitMask s) = 0
  /\ Z.land (newOursBitMask s) (newTheirsBitMask s) = 0.
Proof.
  intros s.
  assert (Hband : JS.band (newOursBitMask s) (newTheirsBitMask s) = 0).
  { apply Z.bits_inj'. intros i Hi. subst s.
    cbn [scoreMove newOursBitMask newTheirsBitMask].
    set (newOurs := JS.bor _ oursBitMask).
    rewrite Z.bits_0, !band_testbit, bnot_testbit by lia.
    replace (Z.min (Z.min (Z.min i 31) 31) 31) with (Z.min i 31) by lia.
    destruct (Z.testbit newOurs (Z.min i 31)); [|reflexivity].
    apply andb_false_r. }
  split; [exact Hband|].
  rewrite <- Hband. unfold JS.band.
  rewrite !ToInt32_small; [reflexivity| |]; subst s.
  - apply newTheirs_int32.
  - apply newOurs_int32.
Qed.

(** C4: the gameEnder flag of a scored move is 0 when the two resulting
    masks do not cover [MAX_BITMASK]; when they do, it is 1 if the count of
    our squares reaches [POSITIONS_TO_WIN] and -1 otherwise. *)
Theorem scoreMove_gameEnder lpConfig oursBitMask theirsBitMask move :
  let s := scoreMove lpConfig oursBitMask theirsBitMask move in
  let full :=
    JS.bor (newOursBitMask s) (newTheirsBitMask s) = MAX_BITMASK lpConfig in
  let newOursCount := lpBitMask.countBits (newOursBitMask s) in
  (~ full -> gameEnder s = 0)
  /\ (full -> newOursCount >= POSITIONS_TO_WIN lpConfig -> gameEnder s = 1)
  /\ (full -> newOursCount < POSITIONS_TO_WIN lpConfig -> gameEnder s = -1).
Proof.
  intros s full newOursCount. subst s full newOursCount.
  cbn [scoreMove gameEnder newOursBitMask newTheirsBitMask].
  destruct (Z.eqb_spec
              (JS.bor (JS.bor (JS.band (snd move)
                                 (JS.bnot (lpBitMask.getProtectedBitMask theirsBitMask)))
                         oursBitMask)
                      (JS.band theirsBitMask
                         (JS.bnot (JS.bor (JS.band (snd move)
                                      (JS.bnot (lpBitMask.getProtectedBitMask theirsBitMask)))
                                    oursBitMask))))
              (MAX_BITMASK lpConfig)) as [Hfull|Hfull].
  - repeat split; intros; try contradiction;
      match goal with
      | |- context [?a <=? ?b] => destruct (Z.leb_spec a b)
      end; lia.
  - repeat split; intros; try reflexivity; contradiction.
Qed.

Lemma scoreMove_gameEnder_witness :
  gameEnder (scoreMove boardConfig 0 0 (word_cab, 33554431)) = 1
  /\ gameEnder (scoreMove boardConfig 0 33554424 (word_cab, 7)) = -1
  /\ gameEnder (scoreMove boardConfig 0 0 (word_cab, 7)) = 0.
Proof.
  split; [|split].
  - apply (scoreMove_gameEnder boardConfig 0 0 (word_cab, 33554431));
      vm_compute; [reflexivity | discriminate].
  - apply (scoreMove_gameEnder boardConfig 0 33554424 (word_cab, 7));
      vm_compute; reflexivity.
  - apply (scoreMove_gameEnder boardConfig 0 0 (word_cab, 7)).
    vm_compute. discriminate.
Defined.

(** ** Ranking *)

Section Ranking.

Ltac unfold_cmp :=
  unfold mayPrecede, byBestMove, JS.or_else, JS.truthy in *;
  repeat match goal with
         | H : context [?x =? 0] |- _ => destruct (Z.eqb_spec x 0); simpl in H
         | |- context [?x =? 0] => destruct (Z.eqb_spec x 0); simpl
         end.

Lemma mayPrecede_total a b : ~ mayPrecede a b -> mayPrecede b a.
Proof. intros H. unfold_cmp; lia. Qed.

Lemma mayPrecede_trans a b c :
  mayPrecede a b -> mayPrecede b c -> mayPrecede a c.
Proof. intros H1 H2. unfold_cmp; lia. Qed.

Lemma strictlyBetter_byBestMove x y :
  strictlyBetter x y <-> byBestMove x y < 0.
Proof. unfold strictlyBetter. split; intros H; unfold_cmp; lia. Qed.

Lemma strictlyBetter_not_mayPrecede x y :
  strictlyBetter x y -> ~ mayPrecede y x.
Proof.
  unfold strictlyBetter. intros H Hle. unfold_cmp; lia.
Qed.

Lemma sortInsert_In {A} (cmp : A -> A -> Z) x l y :
  In y (sortInsert cmp x l) <-> y = x \/ In y l.
Proof.
  induction l as [|z l IH]; simpl.
  - intuition.
  - destruct (cmp x z <=? 0); simpl; [intuition|].
    rewrite IH. intuition.
Qed.

Lemma sort_In {A} (cmp : A -> A -> Z) l y : In y (sort cmp l) <-> In y l.
Proof.
  induction l as [|x l IH]; simpl; [reflexivity|].
  rewrite sortInsert_In, IH. intuition.
Qed.

Lemma sortInsert_sorted x l :
  StronglySorted mayPrecede l ->
  StronglySorted mayPrecede (sortInsert byBestMove x l).
Proof.
  induction 1 as [|y l Hs IH Hall]; simpl.
  - repeat constructor.
  - destruct (Z.leb_spec (byBestMove x y) 0) as [Hle|Hgt].
    + constructor; [constructor; assumption|].
      constructor; [exact Hle|].
      rewrite List.Forall_forall in *. intros z Hz.
      apply mayPrecede_trans with y; [exact Hle|auto].
    + constructor; [exact IH|].
      rewrite List.Forall_forall in *. intros z Hz.
      apply sortInsert_In in Hz as [->|Hz]; [|auto].
      apply mayPrecede_total. unfold mayPrecede. lia.
Qed.

Lemma sort_sorted l : StronglySorted mayPrecede (sort byBestMove l).
Proof.
  induction l as [|x l IH]; simpl; [constructor|].
  apply sortInsert_sorted, IH.
Qed.

Lemma filterLoop_In latestScore seen l m :
  In m (filterLoop latestScore seen l) -> In m l.
Proof.
  revert latestScore seen.
  induction l as [|x l IH]; intros latestScore seen; simpl; [tauto|].
  destruct (_ || _); simpl; [eauto|].
  intros [->|H]; eauto.
Qed.

Lemma filterLoop_sorted (R : ScoredMove -> ScoredMove -> Prop)
    latestScore seen l :
  StronglySorted R l -> StronglySorted R (filterLoop latestScore seen l).
Proof.
  intros Hs. revert latestScore seen.
  induction Hs as [|x l Hs IH Hall]; intros latestScore seen; simpl.
  - constructor.
  - destruct (_ || _); [apply IH|].
    constructor; [apply IH|].
    rewrite List.Forall_forall in *. intros z Hz.
    apply Hall. eapply filterLoop_In, Hz.
Qed.

Lemma firstn_In {A} n (l : list A) x : In x (firstn n l) -> In x l.
Proof.
  revert n. induction l as [|y l IH]; intros [|n]; simpl; try tauto.
  intros [->|H]; eauto.
Qed.

Lemma firstn_sorted {A} (R : A -> A -> Prop) n l :
  StronglySorted R l -> StronglySorted R (firstn n l).
Proof.
  intros Hs. revert n.
  induction Hs as [|x l Hs IH Hall]; intros [|n]; simpl; try constructor.
  - apply IH.
  - rewrite List.Forall_forall in *. intros z Hz.
    apply Hall. eapply firstn_In, Hz.
Qed.

Lemma sorted_lookup {A} (R : A -> A -> Prop) (l : list A) i j a b :
  StronglySorted R l -> (i < j)%nat ->
  l !! i = Some a -> l !! j = Some b -> R a b.
Proof.
  intros Hs. revert i j.
  induction Hs as [|x l Hs IH Hall]; intros i j Hij Hi Hj.
  - discriminate.
  - destruct j as [|j]; [lia|]. simpl in Hj.
    destruct i as [|i]; simpl in Hi.
    + injection Hi as ->. rewrite List.Forall_forall in Hall.
      apply Hall. apply list_elem_of_In. eapply list_elem_of_lookup_2, Hj.
    + apply (IH i j); [lia|assumption..].
Qed.

Lemma lookup_map {A B} (f : A -> B) (l : list A) i :
  map f l !! i = f <$> (l !! i).
Proof.
  revert i. induction l as [|x l IH]; intros [|i]; simpl; auto.
Qed.

Lemma topScoredMoves_sorted lpConfig moves oursBitMask theirsBitMask :
  StronglySorted mayPrecede
    (topScoredMoves lpConfig moves oursBitMask theirsBitMask).
Proof.
  unfold topScoredMoves, filterMoves.
  apply firstn_sorted, filterLoop_sorted, sort_sorted.
Qed.

End Ranking.

(** C5: in the list that [getTopMoves] returns, an entry is the projection
    of a scored move, and the scored move of a later entry is never
    strictly better than that of an earlier one under the chain gameEnder
    descending, protectedDiff descending, vulnerability ascending,
    countDiff descending, commonness rank ascending. *)
Theorem getTopMoves_ranked lpConfig moves oursBitMask theirsBitMask
    (i j : nat) (x y : TopMove) :
  (i < j)%nat ->
  getTopMoves lpConfig moves oursBitMask theirsBitMask !! i = Some x ->
  getTopMoves lpConfig moves oursBitMask theirsBitMask !! j = Some y ->
  exists a b,
    topScoredMoves lpConfig moves oursBitMask theirsBitMask !! i = Some a
    /\ topScoredMoves lpConfig moves oursBitMask theirsBitMask !! j = Some b
    /\ x = toTopMove a /\ y = toTopMove b
    /\ ~ strictlyBetter b a.
Proof.
  unfold getTopMoves. intros Hij Hx Hy.
  rewrite lookup_map in Hx, Hy.
  destruct (topScoredMoves _ _ _ _ !! i) as [a|] eqn:Ha; [|discriminate].
  destruct (topScoredMoves _ _ _ _ !! j) as [b|] eqn:Hb; [|discriminate].
  simpl in Hx, Hy. injection Hx as <-. injection Hy as <-.
  exists a, b. repeat split; try reflexivity.
  intros Hbetter. apply strictlyBetter_not_mayPrecede in Hbetter.
  apply Hbetter.
  eapply sorted_lookup; [apply topScoredMoves_sorted|exact Hij|eassumption..].
Qed.

Lemma getTopMoves_ranked_witness :
  exists a b,
    topScoredMoves boardConfig [(word_cad, 3); (word_cab, 35)] 0 0 !! 0%nat
    = Some a
    /\ topScoredMoves boardConfig [(word_cad, 3); (word_cab, 35)] 0 0 !! 1%nat
       = Some b
    /\ {| tm_word := "cab"; tm_wordBitMask := 35; tm_newOursBitMask := 35;
          tm_newTheirsBitMask := 0; tm_gameEnder := 0 |} = toTopMove a
    /\ {| tm_word := "cad"; tm_wordBitMask := 3; tm_newOursBitMask := 3;
          tm_newTheirsBitMask := 0; tm_gameEnder := 0 |} = toTopMove b
    /\ ~ strictlyBetter b a.
Proof.
  apply (getTopMoves_ranked boardConfig [(word_cad, 3); (word_cab, 35)] 0 0
           0 1).
  - lia.
  - vm_compute. reflexivity.
  - vm_compute. reflexivity.
Defined.

(** ** Filtering *)

Section Filtering.

Lemma filterLoop_words latestScore seen l :
  NoDup (map wordOf (filterLoop latestScore seen l))
  /\ forall m, In m (filterLoop latestScore seen l) -> wordOf m ∉ seen.
Proof.
  revert latestScore seen.
  induction l as [|x l IH]; intros latestScore seen; simpl.
  - split; [constructor|tauto].
  - destruct (seenTruthy seen (ws_word (wordStruct x))) eqn:Hseen; simpl.
    { apply IH. }
    destruct (_ =? latestScore); [apply IH|].
    destruct (IH (protectedDiff x + countDiff x)
                 ({[ws_word (wordStruct x)]} ∪ seen)) as [Hnd Hout].
    unfold seenTruthy in Hseen. apply orb_false_elim in Hseen as [Hseen _].
    apply bool_decide_eq_false in Hseen.
    split.
    + simpl. constructor; [|exact Hnd].
      intros Hin. apply list_elem_of_In, List.in_map_iff in Hin
        as (m & Hw & Hm).
      apply Hout in Hm. apply Hm. unfold wordOf in *. rewrite Hw.
      apply elem_of_union. left. apply elem_of_singleton. reflexivity.
    + intros m [<-|Hm]; [exact Hseen|].
      apply Hout in Hm. intros Hin. apply Hm, elem_of_union. right.
      exact Hin.
Qed.

Lemma NoDup_firstn {A} n (l : list A) : NoDup l -> NoDup (firstn n l).
Proof.
  intros Hnd. revert n.
  induction Hnd as [|x l Hx Hnd IH]; intros [|n]; simpl; try constructor.
  - intros Hin. apply Hx. apply list_elem_of_In.
    apply list_elem_of_In in Hin. eapply firstn_In, Hin.
  - apply IH.
Qed.

End Filtering.

(** Every entry that [getTopMoves] returns is the projection of the
    scored move of one of the moves it was given. *)
Lemma getTopMoves_entries lpConfig moves oursBitMask theirsBitMask e :
  In e (getTopMoves lpConfig moves oursBitMask theirsBitMask) ->
  exists move,
    In move moves
    /\ e = toTopMove (scoreMove lpConfig oursBitMask theirsBitMask move).
Proof.
  unfold getTopMoves, topScoredMoves, filterMoves. intros He.
  apply List.in_map_iff in He as (s & <- & Hs).
  apply firstn_In, filterLoop_In, sort_In in Hs.
  apply List.in_map_iff in Hs as (move & <- & Hmove).
  exists move. split; [exact Hmove|reflexivity].
Qed.

(** C6: the list that [getTopMoves] returns has at most 19 entries, and no
    two of them carry the same word text. *)
Theorem getTopMoves_short_distinct lpConfig moves oursBitMask theirsBitMask :
  (length (getTopMoves lpConfig moves oursBitMask theirsBitMask) <= 19)%nat
  /\ NoDup (map tm_word
              (getTopMoves lpConfig moves oursBitMask theirsBitMask)).
Proof.
  unfold getTopMoves, topScoredMoves. split.
  - rewrite length_map, length_firstn. lia.
  - rewrite map_map. change (fun x => tm_word (toTopMove x)) with wordOf.
    rewrite <- firstn_map. apply NoDup_firstn.
    apply filterLoop_words.
Qed.

(** C10: the running total of [filterMoves] starts at 0, so a first move
    whose protectedDiff + countDiff is 0 is dropped although no move was
    kept before it: the result is that of the rest of the list alone. *)
Theorem filterMoves_drops_first_zero (move : ScoredMove)
    (rest : list ScoredMove) :
  protectedDiff move + countDiff move = 0 ->
  filterMoves (move :: rest) = filterMoves rest.
Proof.
  intros H. unfold filterMoves. simpl. rewrite H. simpl.
  rewrite orb_true_r. reflexivity.
Qed.

Lemma filterMoves_drops_first_zero_witness :
  filterMoves
    [scoreMove boardConfig 0 1 (word_cab, 2);
     scoreMove boardConfig 0 0 (word_cad, 35)]
  = filterMoves [scoreMove boardConfig 0 0 (word_cad, 35)].
Proof.
  apply filterMoves_drops_first_zero. vm_compute. reflexivity.
Defined.

(** ** The board index *)

Section BoardIndex.

Lemma boardLoop_lookup_None board : forall i boardMap c,
  boardLoop i board boardMap !! c = None
  <-> boardMap !! c = None /\ ~ In c board.
Proof.
  induction board as [|x rest IH]; intros i boardMap c; simpl.
  - tauto.
  - rewrite IH.
    assert (Hstep :
      alter (fun l => l ++ [2 ^ Z.of_nat i]) x
        (match boardMap !! x with
         | Some _ => boardMap
         | None => <[x:=[]]> boardMap
         end) !! c = None
      <-> boardMap !! c = None /\ x <> c).
    { destruct (decide (x = c)) as [->|Hne].
      - rewrite lookup_alter_eq.
        destruct (boardMap !! c) eqn:Hc; simpl.
        + rewrite Hc. simpl. split; [discriminate|]. intros [H _]. discriminate.
        + rewrite lookup_insert_eq. simpl.
          split; [discriminate|]. intros [_ H]. congruence.
      - rewrite lookup_alter_ne by assumption.
        destruct (boardMap !! x); [tauto|].
        rewrite lookup_insert_ne by assumption. tauto. }
    rewrite Hstep. intuition.
Qed.

Lemma getBoardPositionMap_absent board c :
  ~ In c (list_ascii_of_string board) ->
  getBoardPositionMap board !! c = None.
Proof.
  intros H. apply boardLoop_lookup_None. split; [apply lookup_empty|exact H].
Qed.

End BoardIndex.

(** ** The letter histogram *)

Section Histogram.

Lemma countBy_add_keys c h k :
  In k (keys (countBy_add c h)) <-> k = c \/ In k (keys h).
Proof.
  induction h as [|[k' n] h IH]; simpl.
  - intuition.
  - destruct (decide (k' = c)) as [->|Hne]; simpl; [intuition|].
    rewrite IH. intuition.
Qed.

Lemma countBy_add_NoDup c h :
  List.NoDup (keys h) -> List.NoDup (keys (countBy_add c h)).
Proof.
  induction h as [|[k' n] h IH]; simpl; intros Hnd.
  - constructor; [simpl; tauto|constructor].
  - destruct (decide (k' = c)) as [->|Hne]; simpl; [exact Hnd|].
    apply List.NoDup_cons_iff in Hnd as [Hk Hnd].
    constructor; [|apply IH, Hnd].
    intros Hin. apply countBy_add_keys in Hin as [->|Hin]; tauto.
Qed.

Lemma countBy_add_positive c h :
  Forall (fun kv => 1 <= snd kv) h ->
  Forall (fun kv => 1 <= snd kv) (countBy_add c h).
Proof.
  induction 1 as [|[k n] h Hn Hall IH]; simpl.
  - constructor; [simpl; lia|constructor].
  - destruct (decide (k = c)); constructor; simpl in *; auto; lia.
Qed.

Lemma countBy_add_total c h : total (countBy_add c h) = total h + 1.
Proof.
  unfold total. induction h as [|[k n] h IH]; simpl; [reflexivity|].
  destruct (decide (k = c)); simpl; lia.
Qed.

(** The histogram after the letters [l], from the histogram [h]. *)
Lemma countBy_fold l : forall h,
  List.NoDup (keys h) ->
  Forall (fun kv => 1 <= snd kv) h ->
  let h' := fold_left (fun h c => countBy_add c h) l h in
  List.NoDup (keys h')
  /\ Forall (fun kv => 1 <= snd kv) h'
  /\ total h' = total h + Z.of_nat (length l)
  /\ (forall k, In k (keys h') <-> In k l \/ In k (keys h)).
Proof.
  induction l as [|c l IH]; intros h Hnd Hpos; simpl.
  - repeat split; auto; [lia|tauto].
  - destruct (IH (countBy_add c h)) as (H1 & H2 & H3 & H4).
    + apply countBy_add_NoDup, Hnd.
    + apply countBy_add_positive, Hpos.
    + repeat split; auto.
      * rewrite H3, countBy_add_total. lia.
      * rewrite H4, countBy_add_keys. intuition.
      * rewrite H4, countBy_add_keys. intuition.
Qed.

Lemma length_list_ascii (s : string) :
  length (list_ascii_of_string s) = String.length s.
Proof.
  induction s as [|a s IH]; simpl; [reflexivity|].
  f_equal. exact IH.
Qed.

Lemma countBy_spec letters :
  List.NoDup (keys (countBy letters))
  /\ Forall (fun kv => 1 <= snd kv) (countBy letters)
  /\ total (countBy letters) = Z.of_nat (String.length letters)
  /\ (forall k, In k (keys (countBy letters))
                <-> In k (list_ascii_of_string letters)).
Proof.
  destruct (countBy_fold (list_ascii_of_string letters) [])
    as (H1 & H2 & H3 & H4); [constructor|constructor|].
  unfold countBy. repeat split; auto.
  - rewrite H3, length_list_ascii. unfold total. simpl. lia.
  - intros H. apply H4 in H. simpl in H. tauto.
  - intros H. apply H4. now left.
Qed.

Lemma flat_map_app_perm {A B} (f g : A -> list B) l :
  Permutation (flat_map (fun x => f x ++ g x) l)
              (flat_map f l ++ flat_map g l).
Proof.
  induction l as [|x l IH]; simpl; [constructor|].
  rewrite IH, <- !app_assoc. apply Permutation_app_head.
  rewrite !app_assoc. apply Permutation_app_tail, Permutation_app_comm.
Qed.

Lemma digitKeys_select (kv : ascii * Z) :
  flat_map (fun d => if bool_decide (fst kv = d) then [kv] else []) digitKeys
  = if isIndexKey (fst kv) then [kv] else [].
Proof.
  destruct kv as [c n]. simpl fst.
  destruct c as [[] [] [] [] [] [] [] []]; reflexivity.
Qed.

Lemma forIn_Permutation h : Permutation (forIn h) h.
Proof.
  unfold forIn. induction h as [|kv h IH].
  - reflexivity.
  - assert (E :
      flat_map (fun d => List.filter (fun kv0 => bool_decide (fst kv0 = d))
                           (kv :: h)) digitKeys
      = flat_map (fun d =>
          (if bool_decide (fst kv = d) then [kv] else [])
          ++ List.filter (fun kv0 => bool_decide (fst kv0 = d)) h)
          digitKeys).
    { apply flat_map_ext. intros d. simpl.
      destruct (bool_decide (fst kv = d)); reflexivity. }
    rewrite E, flat_map_app_perm, digitKeys_select. clear E.
    cbn [List.filter].
    destruct (isIndexKey (fst kv)); simpl.
    + constructor. exact IH.
    + etransitivity; [|apply perm_skip, IH].
      symmetry. apply Permutation_middle.
Qed.

Lemma forIn_In h kv : In kv (forIn h) <-> In kv h.
Proof.
  split; apply Permutation_in;
    [apply forIn_Permutation|symmetry; apply forIn_Permutation].
Qed.

End Histogram.

(** ** Faults of the move generator *)

Section Faults.

Lemma posCombosLoop_undefined boardPositionMap letterCounts c n :
  In (c, n) letterCounts -> n <> 0 -> boardPositionMap !! c = None ->
  posCombosLoop boardPositionMap letterCounts = TypeError.
Proof.
  intros Hin Hn Hc.
  induction letterCounts as [|[c' n'] rest IH]; simpl; [contradiction|].
  destruct Hin as [Heq|Hin].
  - injection Heq as -> ->. rewrite Hc. unfold kCombinations.
    destruct (Z.eqb_spec n 0); [contradiction|reflexivity].
  - rewrite (IH Hin).
    destruct (kCombinations (boardPositionMap !! c') n'); reflexivity.
Qed.

Lemma movesLoop_fault boardPositionMap wordStructs w :
  In w wordStructs -> movesForWord boardPositionMap w = TypeError ->
  movesLoop boardPositionMap wordStructs = TypeError.
Proof.
  intros Hin Hw.
  induction wordStructs as [|w' rest IH]; simpl; [contradiction|].
  destruct Hin as [->|Hin].
  - rewrite Hw. reflexivity.
  - rewrite (IH Hin).
    destruct (movesForWord boardPositionMap w'); reflexivity.
Qed.

Lemma movesForWord_absent_letter board w c :
  In c (list_ascii_of_string (ws_letters w)) ->
  ~ In c (list_ascii_of_string board) ->
  movesForWord (getBoardPositionMap board) w = TypeError.
Proof.
  intros Hc Habsent. unfold movesForWord.
  destruct (countBy_spec (ws_letters w)) as (_ & Hpos & _ & Hkeys).
  apply Hkeys in Hc. unfold keys in Hc.
  apply List.in_map_iff in Hc as ([c' n] & Hfst & Hin).
  simpl in Hfst. subst c'.
  rewrite (posCombosLoop_undefined _ _ c n); [reflexivity| | |].
  - apply forIn_In, Hin.
  - rewrite List.Forall_forall in Hpos. apply Hpos in Hin. simpl in Hin. lia.
  - apply getBoardPositionMap_absent, Habsent.
Qed.

End Faults.

(** C2, as the code behaves: when a word of the list has a letter that
    does not occur on the board, [boardPositionMap[c]] is [undefined],
    [kCombinations] reads its [length], and the call of [getMovesForBoard]
    ends in a [TypeError] instead of producing no move for that word. *)
Theorem getMovesForBoard_absent_letter board wordStructs w c :
  In w wordStructs ->
  In c (list_ascii_of_string (ws_letters w)) ->
  ~ In c (list_ascii_of_string board) ->
  getMovesForBoard board wordStructs = TypeError.
Proof.
  intros Hw Hc Habsent. unfold getMovesForBoard.
  apply movesLoop_fault with w; [exact Hw|].
  apply movesForWord_absent_letter with c; assumption.
Qed.

Lemma getMovesForBoard_absent_letter_witness :
  getMovesForBoard "abcb" [word_cab; word_cad] = TypeError.
Proof.
  apply (getMovesForBoard_absent_letter "abcb" [word_cab; word_cad]
           word_cad "d"%char).
  - simpl. tauto.
  - simpl. tauto.
  - simpl. intros [H|[H|[H|[H|[]]]]]; discriminate.
Defined.

(** C8: on the board "abcb" the position map is a -> [1], b -> [2, 8],
    c -> [4], and a word with the letters "cab" gets exactly the two moves
    with the bitmaps 7 and 13, in this order. *)
Theorem scenario_abcb_cab (text : string) (rank : Z) :
  let w := {| ws_word := text; ws_letters := "cab"; ws_freq := rank |} in
  getBoardPositionMap "abcb"
  = {[ "a"%char := [1]; "b"%char := [2; 8]; "c"%char := [4] ]}
  /\ getMovesForBoard "abcb" [w] = Ok [(w, 7); (w, 13)].
Proof.
  intros w. split; reflexivity.
Qed.

(** ** Masks within a bit width *)

Section Ranges.

Lemma bits_above n x i : 0 <= x < 2 ^ n -> n <= i -> Z.testbit x i = false.
Proof.
  intros Hx Hi. destruct (Z.eq_dec x 0) as [->|Hne]; [apply Z.bits_0|].
  assert (0 <= n).
  { destruct (Z.lt_ge_cases n 0); [|assumption].
    rewrite Z.pow_neg_r in Hx by assumption. lia. }
  apply Z.bits_above_log2; [lia|].
  apply Z.lt_le_trans with n; [|exact Hi].
  apply Z.log2_lt_pow2; lia.
Qed.

Lemma range_of_bits n x :
  0 <= n -> 0 <= x -> (forall i, n <= i -> Z.testbit x i = false) ->
  0 <= x < 2 ^ n.
Proof.
  intros Hn Hx Hbits.
  replace x with (x mod 2 ^ n); [apply Z.mod_pos_bound; lia|].
  apply Z.bits_inj'. intros i Hi. rewrite Z.testbit_mod_pow2 by assumption.
  destruct (Z.ltb_spec i n); simpl; [reflexivity|].
  symmetry. apply Hbits. assumption.
Qed.

Lemma lor_range n a b :
  0 <= a < 2 ^ n -> 0 <= b < 2 ^ n -> 0 <= Z.lor a b < 2 ^ n.
Proof.
  intros Ha Hb.
  destruct (Z.lt_ge_cases n 0) as [Hn|Hn].
  { rewrite Z.pow_neg_r in Ha by assumption. lia. }
  apply range_of_bits; [assumption|apply Z.lor_nonneg; lia|].
  intros i Hi. rewrite Z.lor_spec, (bits_above n a), (bits_above n b);
    auto.
Qed.

Lemma pow2_range (i n : nat) :
  (i < n)%nat -> 0 <= 2 ^ Z.of_nat i < 2 ^ Z.of_nat n.
Proof.
  intros H. split; [apply Z.pow_nonneg; lia|].
  apply Z.pow_lt_mono_r; lia.
Qed.

Lemma range_mono n m x : n <= m -> 0 <= x < 2 ^ n -> 0 <= x < 2 ^ m.
Proof.
  intros Hnm Hx. split; [lia|].
  destruct (Z.lt_ge_cases n 0) as [Hn|Hn].
  { rewrite Z.pow_neg_r in Hx by assumption. lia. }
  apply Z.lt_le_trans with (2 ^ n); [lia|].
  apply Z.pow_le_mono_r; lia.
Qed.

Lemma bor_small a b :
  0 <= a < 2 ^ 31 -> 0 <= b < 2 ^ 31 -> JS.bor a b = Z.lor a b.
Proof.
  intros Ha Hb. unfold JS.bor. rewrite !ToInt32_small by lia. reflexivity.
Qed.

(** On a single bit of the board, [&] tests that bit. *)
Lemma band_bit_truthy (i : nat) m :
  (i < 31)%nat ->
  JS.truthy (JS.band (2 ^ Z.of_nat i) m) = Z.testbit m (Z.of_nat i).
Proof.
  intros Hi. unfold JS.truthy.
  destruct (Z.testbit m (Z.of_nat i)) eqn:Hbit.
  - destruct (Z.eqb_spec (JS.band (2 ^ Z.of_nat i) m) 0) as [H0|]; [|reflexivity].
    exfalso.
    assert (Hb : Z.testbit (JS.band (2 ^ Z.of_nat i) m) (Z.of_nat i) = true).
    { rewrite band_testbit by lia. rewrite Z.min_l by lia.
      rewrite Z.pow2_bits_true by lia. rewrite Hbit. reflexivity. }
    rewrite H0, Z.bits_0 in Hb. discriminate.
  - replace (JS.band (2 ^ Z.of_nat i) m) with 0; [reflexivity|].
    symmetry. apply Z.bits_inj'. intros j Hj.
    rewrite band_testbit, Z.bits_0 by lia.
    rewrite Z.pow2_bits_eqb by lia.
    destruct (Z.eqb_spec (Z.of_nat i) (Z.min j 31)) as [<-|]; [|reflexivity].
    rewrite Hbit. reflexivity.
Qed.

(** Below bit 31, [a & ~m] is the set difference. *)
Lemma band_bnot_small a m :
  0 <= a < 2 ^ 31 -> JS.band a (JS.bnot m) = Z.land a (Z.lnot m).
Proof.
  intros Ha. apply Z.bits_inj'. intros j Hj.
  rewrite band_testbit, bnot_testbit, Z.land_spec, Z.lnot_spec by lia.
  destruct (Z.lt_ge_cases j 31).
  - rewrite !Z.min_l by lia. reflexivity.
  - rewrite !(bits_above 31 a) by lia. reflexivity.
Qed.

End Ranges.

(** ** Vulnerability *)

Section Vulnerability.

Lemma adjacent_table :
  lpBitMask.adjacent
  = map (fun i => (2 ^ Z.of_nat i, adjacentOf i)) (seq 0 25).
Proof. reflexivity. Qed.

Lemma adjacentOf_range i : (i < 25)%nat -> 0 <= adjacentOf i < 2 ^ 25.
Proof.
  intros Hi.
  do 25 (destruct i as [|i]; [vm_compute; split; [discriminate|reflexivity]|]).
  lia.
Qed.

Lemma getVulnerability_fold bitMask (positions : list nat) : forall v,
  Forall (fun i => (i < 25)%nat) positions ->
  fold_left
    (fun vulnerability (a : Z * Z) =>
       if JS.truthy (JS.band (fst a) bitMask)
       then vulnerability
            + lpBitMask.countBits (JS.band (snd a) (JS.bnot bitMask))
       else vulnerability)
    (map (fun i => (2 ^ Z.of_nat i, adjacentOf i)) positions) v
  = v + fold_right Z.add 0
          (map (fun i =>
                  if Z.testbit bitMask (Z.of_nat i)
                  then lpBitMask.countBits
                         (Z.land (adjacentOf i) (Z.lnot bitMask))
                  else 0)
               positions).
Proof.
  induction positions as [|i positions IH]; intros v Hall; simpl.
  - lia.
  - inversion Hall as [|? ? Hi Hrest]; subst.
    rewrite IH by assumption.
    rewrite band_bit_truthy by lia.
    rewrite band_bnot_small
      by (apply range_mono with 25; [lia|apply adjacentOf_range, Hi]).
    destruct (Z.testbit bitMask (Z.of_nat i)); lia.
Qed.

(** What the code computes: the neighbours are taken against the mask
    that is passed itself. *)
Lemma getVulnerability_spec bitMask :
  getVulnerability bitMask = neighboursOutside bitMask bitMask.
Proof.
  unfold getVulnerability, neighboursOutside.
  rewrite adjacent_table, getVulnerability_fold; [lia|].
  apply List.Forall_forall. intros i Hi. apply in_seq in Hi. lia.
Qed.

Lemma getProtectedBitMask_fold bitMask (positions : list nat) : forall p,
  Forall (fun i => (i < 25)%nat) positions ->
  0 <= p < 2 ^ 25 ->
  0 <= fold_left
         (fun protectedBitMask (a : Z * Z) =>
            if JS.truthy (JS.band (fst a) bitMask)
               && (JS.band (snd a) bitMask =? snd a)
            then JS.bor protectedBitMask (fst a)
            else protectedBitMask)
         (map (fun i => (2 ^ Z.of_nat i, adjacentOf i)) positions) p
    < 2 ^ 25.
Proof.
  induction positions as [|i l IH]; intros p Hall Hp; simpl; [exact Hp|].
  inversion Hall as [|? ? Hi Hrest]; subst.
  apply IH; [assumption|]. destruct (_ && _); [|exact Hp].
  pose proof (pow2_range i 25 Hi) as Hb.
  rewrite bor_small by (apply range_mono with 25; [lia|assumption]).
  apply lor_range; assumption.
Qed.

Lemma getProtectedBitMask_range bitMask :
  0 <= lpBitMask.getProtectedBitMask bitMask < 2 ^ 25.
Proof.
  unfold lpBitMask.getProtectedBitMask. rewrite adjacent_table.
  apply getProtectedBitMask_fold; [|lia].
  apply List.Forall_forall. intros i Hi. apply in_seq in Hi. lia.
Qed.

(** A bit of the protected mask comes from the table entry of its
    position, whose neighbours are all in the mask. *)
Lemma getProtectedBitMask_fold_testbit bitMask (positions : list nat) :
  forall p (i : nat),
  Forall (fun j => (j < 25)%nat) positions ->
  0 <= p < 2 ^ 25 ->
  Z.testbit
    (fold_left
       (fun protectedBitMask (a : Z * Z) =>
          if JS.truthy (JS.band (fst a) bitMask)
             && (JS.band (snd a) bitMask =? snd a)
          then JS.bor protectedBitMask (fst a)
          else protectedBitMask)
       (map (fun j => (2 ^ Z.of_nat j, adjacentOf j)) positions) p)
    (Z.of_nat i) = true ->
  Z.testbit p (Z.of_nat i) = true
  \/ JS.band (adjacentOf i) bitMask = adjacentOf i.
Proof.
  induction positions as [|j l IH]; intros p i Hall Hp Hbit; simpl in Hbit;
    [left; exact Hbit|].
  inversion Hall as [|? ? Hj Hrest]; subst.
  pose proof (pow2_range j 25 Hj) as Hb.
  destruct (JS.truthy (JS.band (2 ^ Z.of_nat j) bitMask)
            && (JS.band (adjacentOf j) bitMask =? adjacentOf j)) eqn:Hcond.
  - apply andb_true_iff in Hcond as [_ Hadj]. apply Z.eqb_eq in Hadj.
    rewrite bor_small in Hbit
      by (apply range_mono with 25; [lia|assumption]).
    apply IH in Hbit as [Hbit|Hbit];
      [|right; exact Hbit|assumption|apply lor_range; assumption].
    rewrite Z.lor_spec, Z.pow2_bits_eqb in Hbit by lia.
    apply orb_true_iff in Hbit as [Hbit|Hbit]; [left; exact Hbit|].
    apply Z.eqb_eq, Nat2Z.inj in Hbit. subst j. right. exact Hadj.
  - apply IH in Hbit; assumption.
Qed.

Lemma neighboursOutside_fold_zero mask claimed (positions : list nat) :
  Forall (fun j => (j < 25)%nat) positions ->
  (forall i : nat, Z.testbit mask (Z.of_nat i) = true ->
                   JS.band (adjacentOf i) claimed = adjacentOf i) ->
  fold_right Z.add 0
    (map (fun i =>
            if Z.testbit mask (Z.of_nat i)
            then lpBitMask.countBits (Z.land (adjacentOf i) (Z.lnot claimed))
            else 0)
         positions) = 0.
Proof.
  intros Hall Hmask.
  induction Hall as [|i l Hi Hall IH]; cbn [map fold_right]; [reflexivity|].
  rewrite IH.
  destruct (Z.testbit mask (Z.of_nat i)) eqn:Hbit; [|reflexivity].
  apply Hmask in Hbit.
  replace (Z.land (adjacentOf i) (Z.lnot claimed)) with 0; [reflexivity|].
  symmetry. apply Z.bits_inj'. intros k Hk.
  rewrite Z.land_spec, Z.lnot_spec, Z.bits_0 by lia.
  destruct (Z.testbit (adjacentOf i) k) eqn:Hadjk; [|reflexivity].
  assert (k < 25).
  { destruct (Z.lt_ge_cases k 25) as [|Hge]; [assumption|].
    rewrite (bits_above 25 (adjacentOf i) k) in Hadjk;
      [discriminate|apply adjacentOf_range, Hi|exact Hge]. }
  rewrite <- Hbit, band_testbit in Hadjk by lia.
  rewrite Z.min_l in Hadjk by lia.
  apply andb_true_iff in Hadjk as [_ ->]. reflexivity.
Qed.

Lemma getProtectedBitMask_testbit bitMask (i : nat) :
  Z.testbit (lpBitMask.getProtectedBitMask bitMask) (Z.of_nat i) = true ->
  JS.band (adjacentOf i) bitMask = adjacentOf i.
Proof.
  unfold lpBitMask.getProtectedBitMask. rewrite adjacent_table.
  intros Hbit.
  apply getProtectedBitMask_fold_testbit in Hbit as [Hbit|Hadj];
    [rewrite Z.bits_0 in Hbit; discriminate|exact Hadj| |lia].
  apply List.Forall_forall. intros j Hj. apply in_seq in Hj. lia.
Qed.

(** The neighbours of a protected square are all ours: counted against
    the ownership mask itself, they would always sum to 0. *)
Lemma neighboursOutside_protected_zero bitMask :
  neighboursOutside (lpBitMask.getProtectedBitMask bitMask) bitMask = 0.
Proof.
  apply neighboursOutside_fold_zero.
  - apply List.Forall_forall. intros i Hi. apply in_seq in Hi. lia.
  - apply getProtectedBitMask_testbit.
Qed.

End Vulnerability.

(** C1, as the code computes it: the vulnerability of a scored move is the
    sum, over the set bits [b] of [newOursProtected] (all of them on the
    board), of the population count of [adjacent(b) & ~newOursProtected]:
    the neighbours are counted against the protected mask, not against
    [newOurs]. *)
Theorem scoreMove_vulnerability lpConfig oursBitMask theirsBitMask move :
  let s := scoreMove lpConfig oursBitMask theirsBitMask move in
  let newOursProtected := lpBitMask.getProtectedBitMask (newOursBitMask s) in
  0 <= newOursProtected < 2 ^ 25
  /\ vulnerability s = neighboursOutside newOursProtected newOursProtected.
Proof.
  intros s newOursProtected. split.
  - apply getProtectedBitMask_range.
  - apply getVulnerability_spec.
Qed.

(** C1, as the claim states it, fails: after the word on the squares 0, 1
    and 5 of an empty board, square 0 is protected, its two neighbours are
    ours, and the code still counts them. *)
Lemma scoreMove_vulnerability_not_against_newOurs :
  let s := scoreMove boardConfig 0 0 (word_cab, 35) in
  let newOursProtected := lpBitMask.getProtectedBitMask (newOursBitMask s) in
  newOursBitMask s = 35 /\ newOursProtected = 1
  /\ vulnerability s = 2
  /\ neighboursOutside newOursProtected (newOursBitMask s) = 0
  /\ vulnerability s
     <> neighboursOutside newOursProtected (newOursBitMask s).
Proof.
  vm_compute. repeat split; discriminate.
Qed.

(** ** Counting selections *)

Section Choose.

Lemma choose_above n : forall k, (n < k)%nat -> choose n k = 0%nat.
Proof.
  induction n as [|n IH]; intros [|k] Hk; simpl; try lia.
  rewrite !IH by lia. reflexivity.
Qed.

(** [choose] is the binomial coefficient. *)
Lemma choose_fact n : forall k,
  (k <= n)%nat -> (choose n k * (fact k * fact (n - k)) = fact n)%nat.
Proof.
  induction n as [|n IH]; intros [|k] Hk; try (simpl; lia).
  change (choose (S n) (S k)) with (choose n k + choose n (S k))%nat.
  replace (S n - S k)%nat with (n - k)%nat by lia.
  pose proof (IH k ltac:(lia)) as H1.
  destruct (Nat.eq_dec k n) as [->|Hne].
  - rewrite (choose_above n (S n)) by lia. rewrite Nat.sub_diag in *.
    change (fact (S n)) with (S n * fact n)%nat.
    change (fact 0) with 1%nat in *. nia.
  - pose proof (IH (S k) ltac:(lia)) as H2.
    replace (n - k)%nat with (S (n - S k)) in * by lia.
    change (fact (S (n - S k))) with (S (n - S k) * fact (n - S k))%nat
      in *.
    change (fact (S n)) with (S n * fact n)%nat.
    change (fact (S k)) with (S k * fact k)%nat in *.
    nia.
Qed.

Lemma combs_length {A} (l : list A) : forall k,
  length (combs k l) = choose (length l) k.
Proof.
  induction l as [|x r IH]; intros [|k]; simpl; try reflexivity.
  rewrite length_app, length_map, !IH. reflexivity.
Qed.

Lemma combs_sublist {A} (l : list A) : forall k s,
  In s (combs k l) -> s `sublist_of` l /\ length s = k.
Proof.
  induction l as [|x r IH]; intros [|k] s; simpl.
  - intros [<-|[]]. split; [constructor|reflexivity].
  - intros [].
  - intros [<-|[]]. split; [apply sublist_nil_l|reflexivity].
  - intros Hin. apply in_app_iff in Hin as [Hin|Hin].
    + apply List.in_map_iff in Hin as (s' & <- & Hin).
      apply IH in Hin as [Hsub Hlen].
      split; [constructor; exact Hsub|simpl; congruence].
    + apply IH in Hin as [Hsub Hlen].
      split; [constructor; exact Hsub|exact Hlen].
Qed.

(** [kc] pushes, for every selection in order, the selection or-ed into
    [curr]. *)
Lemma kc_combs bits : forall k curr,
  kc (Z.of_nat (S k)) bits curr
  = map (fun s => fold_left JS.bor s curr) (combs (S k) bits).
Proof.
  induction bits as [|b rest IH]; intros k curr; [reflexivity|].
  cbn [kc combs]. rewrite map_app, map_map. cbn [fold_left].
  rewrite <- IH. f_equal.
  destruct k as [|k].
  - destruct rest; reflexivity.
  - destruct (Z.eqb_spec (Z.of_nat (S (S k))) 1) as [H|_]; [lia|].
    replace (Z.of_nat (S (S k)) - 1) with (Z.of_nat (S k)) by lia.
    apply IH.
Qed.

End Choose.

(** ** Unions of single bits *)

Section Unions.

Lemma isBit_mono n m z : (n <= m)%nat -> isBit n z -> isBit m z.
Proof. intros Hnm (i & Hi & ->). exists i. split; [lia|reflexivity]. Qed.

Lemma isBit_range n z : isBit n z -> 0 <= z < 2 ^ Z.of_nat n.
Proof. intros (i & Hi & ->). apply pow2_range, Hi. Qed.

Lemma union_app s1 s2 : union (s1 ++ s2) = Z.lor (union s1) (union s2).
Proof.
  unfold union. induction s1 as [|z s1 IH]; simpl; [reflexivity|].
  rewrite IH, Z.lor_assoc. reflexivity.
Qed.

Lemma union_range n s :
  Forall (isBit n) s -> 0 <= union s < 2 ^ Z.of_nat n.
Proof.
  induction 1 as [|z s Hz Hs IH]; simpl.
  - split; [lia|]. apply Z.pow_pos_nonneg; lia.
  - apply lor_range; [apply isBit_range, Hz|exact IH].
Qed.

(** A bit of the union is set exactly when its value is in the list. *)
Lemma union_testbit n s (i : nat) :
  Forall (isBit n) s ->
  Z.testbit (union s) (Z.of_nat i) = true <-> In (2 ^ Z.of_nat i) s.
Proof.
  induction 1 as [|z s Hz Hs IH]; simpl.
  - rewrite Z.bits_0. split; [discriminate|tauto].
  - rewrite Z.lor_spec, orb_true_iff, IH.
    destruct Hz as (j & Hj & ->).
    rewrite Z.pow2_bits_eqb by lia. rewrite Z.eqb_eq.
    split; (intros [H|H]; [left|right; exact H]).
    + congruence.
    + apply Z.pow_inj_r in H; lia.
Qed.

Lemma fold_bor_union s : forall curr,
  Forall (isBit 31) s -> 0 <= curr < 2 ^ 31 ->
  fold_left JS.bor s curr = Z.lor curr (union s).
Proof.
  induction s as [|z s IH]; intros curr Hs Hcurr; simpl.
  - rewrite Z.lor_0_r. reflexivity.
  - inversion Hs as [|? ? Hz Hs']; subst.
    pose proof (isBit_range 31 z Hz) as Hr.
    rewrite bor_small by assumption.
    rewrite IH; [|assumption|apply (lor_range 31); assumption].
    rewrite Z.lor_assoc. reflexivity.
Qed.

Lemma sublist_Forall {A} (P : A -> Prop) (s l : list A) :
  s `sublist_of` l -> Forall P l -> Forall P s.
Proof.
  intros Hsub Hl. rewrite List.Forall_forall in *. intros x Hx.
  apply Hl. apply list_elem_of_In. eapply sublist_subseteq; [exact Hsub|].
  apply list_elem_of_In, Hx.
Qed.

Lemma sublist_In {A} (s l : list A) x : s `sublist_of` l -> In x s -> In x l.
Proof.
  intros Hsub Hx. apply list_elem_of_In. eapply sublist_subseteq; [exact Hsub|].
  apply list_elem_of_In, Hx.
Qed.

Lemma sublist_ListNoDup {A} (s l : list A) :
  s `sublist_of` l -> List.NoDup l -> List.NoDup s.
Proof.
  intros Hsub Hl. apply NoDup_ListNoDup. eapply sublist_NoDup; [|exact Hsub].
  apply NoDup_ListNoDup, Hl.
Qed.

(** The masks of the selections of distinct bits are distinct, also when
    or-ed into a [curr] that has none of these bits. *)
Lemma combs_masks_NoDup l : forall k curr,
  List.NoDup l -> Forall (isBit 31) l ->
  (forall i : nat, In (2 ^ Z.of_nat i) l ->
                   Z.testbit curr (Z.of_nat i) = false) ->
  List.NoDup (map (fun s => Z.lor curr (union s)) (combs k l)).
Proof.
  assert (Hone : forall z : Z, List.NoDup [z]).
  { intros z. constructor; [simpl; tauto|constructor]. }
  induction l as [|x r IH]; intros [|k] curr Hnd Hbits Hcurr; simpl;
    try apply Hone; try constructor.
  apply List.NoDup_cons_iff in Hnd as [Hx Hnd].
  inversion Hbits as [|? ? Hxbit Hrbits]; subst.
  destruct Hxbit as (ix & Hix & ->).
  rewrite map_app, map_map. apply List.NoDup_app.
  - erewrite map_ext; [apply (IH k (Z.lor curr (2 ^ Z.of_nat ix)))|];
      try assumption.
    + intros i Hi. rewrite Z.lor_spec, Hcurr by (right; exact Hi).
      rewrite Z.pow2_bits_eqb by lia.
      destruct (Z.eqb_spec (Z.of_nat ix) (Z.of_nat i)) as [E|]; [|reflexivity].
      rewrite E in Hx. contradiction.
    + intros s. simpl. rewrite Z.lor_assoc. reflexivity.
  - apply IH; try assumption. intros i Hi. apply Hcurr. right. exact Hi.
  - intros m Hm1 Hm2.
    apply List.in_map_iff in Hm1 as (s1 & <- & Hs1).
    apply List.in_map_iff in Hm2 as (s2 & Heq & Hs2).
    apply combs_sublist in Hs2 as [Hsub2 _].
    assert (Hbit : Z.testbit (Z.lor curr (union s2)) (Z.of_nat ix) = true).
    { rewrite Heq. simpl. rewrite !Z.lor_spec, Z.pow2_bits_true by lia.
      rewrite orb_true_r. reflexivity. }
    rewrite Z.lor_spec, Hcurr in Hbit by (left; reflexivity).
    simpl in Hbit.
    apply (union_testbit 31) in Hbit;
      [|eapply sublist_Forall; eassumption].
    apply Hx. eapply sublist_In; eassumption.
Qed.

End Unions.

(** ** Combinations *)

(** C3, amended: for distinct single-bit values below bit 31 and k >= 1,
    [kCombinations] returns [choose (length positions) k] distinct masks,
    each the union of k distinct elements of [positions]; the result is
    empty when k = 0 and when k exceeds the number of positions. *)
Theorem kCombinations_spec (positions : list Z) (k : nat) :
  List.NoDup positions ->
  Forall (isBit 31) positions ->
  exists masks,
    kCombinations (Some positions) (Z.of_nat k) = Ok masks
    /\ ((1 <= k)%nat -> length masks = choose (length positions) k)
    /\ List.NoDup masks
    /\ (forall m, In m masks ->
         exists s, s `sublist_of` positions /\ length s = k
                   /\ List.NoDup s /\ m = union s)
    /\ (k = 0%nat -> masks = [])
    /\ ((length positions < k)%nat -> masks = []).
Proof.
  intros Hnd Hbits. unfold kCombinations.
  destruct k as [|k].
  - exists []. simpl. repeat split; try constructor; try tauto; lia.
  - destruct (Z.eqb_spec (Z.of_nat (S k)) 0) as [H|_]; [lia|].
    eexists. split; [reflexivity|].
    rewrite kc_combs.
    assert (Hmasks :
      map (fun s => fold_left JS.bor s 0) (combs (S k) positions)
      = map (fun s => Z.lor 0 (union s)) (combs (S k) positions)).
    { apply map_ext_in. intros s Hs. apply combs_sublist in Hs as [Hsub _].
      apply fold_bor_union; [|lia]. eapply sublist_Forall; eassumption. }
    rewrite Hmasks. repeat split.
    + intros _. rewrite length_map. apply combs_length.
    + apply combs_masks_NoDup; try assumption.
      intros i _. apply Z.bits_0.
    + intros m Hm. apply List.in_map_iff in Hm as (s & <- & Hs).
      apply combs_sublist in Hs as [Hsub Hlen].
      exists s. repeat split; try assumption.
      eapply sublist_ListNoDup; eassumption.
    + discriminate.
    + intros Hlt. apply length_zero_iff_nil.
      rewrite length_map, combs_length. apply choose_above, Hlt.
Qed.

Lemma kCombinations_spec_witness :
  exists masks,
    kCombinations (Some [1; 2; 4; 8]) (Z.of_nat 2) = Ok masks
    /\ ((1 <= 2)%nat -> length masks = choose (length [1; 2; 4; 8]) 2)
    /\ List.NoDup masks
    /\ (forall m, In m masks ->
         exists s, s `sublist_of` [1; 2; 4; 8] /\ length s = 2%nat
                   /\ List.NoDup s /\ m = union s)
    /\ (2%nat = 0%nat -> masks = [])
    /\ ((length [1; 2; 4; 8] < 2)%nat -> masks = []).
Proof.
  apply (kCombinations_spec [1; 2; 4; 8] 2).
  - repeat constructor; simpl; intuition discriminate.
  - repeat constructor;
      [exists 0%nat|exists 1%nat|exists 2%nat|exists 3%nat];
      (split; [lia|reflexivity]).
Defined.

(** C3, as the claim states it, fails at k = 0, where the result is empty
    and not the one empty selection that C(n, 0) = 1 counts; and it fails
    for single-bit values from 2^32 on, which the 32-bit [|] maps to 0. *)
Lemma kCombinations_claim_fails :
  ~ kCombinations_claim [1] 0
  /\ ~ kCombinations_claim [2 ^ 32; 2 ^ 33] 1.
Proof.
  split.
  - intros (masks & Hres & Hlen & _). vm_compute in Hres.
    injection Hres as <-. vm_compute in Hlen. discriminate.
  - intros (masks & Hres & _ & Hnd & _). vm_compute in Hres.
    injection Hres as <-.
    apply List.NoDup_cons_iff in Hnd as [Hin _]. apply Hin. now left.
Qed.

(** ** Population counts of unions *)

Section PopCount.





End PopCount.

(** ** The board index, continued *)

Section BoardBits.

Lemma skipn_cons_inv {A} (l : list A) : forall i x r,
  skipn i l = x :: r -> nth_error l i = Some x /\ skipn (S i) l = r.
Proof.
  induction l as [|y l IH]; intros [|i] x r H; simpl in *;
    try discriminate.
  - injection H as -> ->. split; reflexivity.
  - apply IH in H. exact H.
Qed.

Lemma boardLoop_inv board rest : forall i boardMap,
  skipn i board = rest ->
  boardInv board i boardMap ->
  boardInv board (i + length rest) (boardLoop i rest boardMap).
Proof.
  induction rest as [|x rest IH]; intros i boardMap Hskip Hinv; simpl.
  - rewrite Nat.add_0_r. exact Hinv.
  - apply skipn_cons_inv in Hskip as [Hx Hskip].
    replace (i + S (length rest))%nat with (S i + length rest)%nat by lia.
    apply IH; [exact Hskip|]. clear IH.
    intros c l Hl.
    destruct (decide (x = c)) as [->|Hne].
    + rewrite lookup_alter_eq in Hl.
      assert (Hold : exists l0, l = l0 ++ [2 ^ Z.of_nat i]
                /\ (boardMap !! c = Some l0
                    \/ (boardMap !! c = None /\ l0 = []))).
      { destruct (boardMap !! c) as [l0|] eqn:Hc.
        - rewrite Hc in Hl. simpl in Hl. injection Hl as <-.
          exists l0. split; [reflexivity|left; reflexivity].
        - rewrite lookup_insert_eq in Hl. simpl in Hl. injection Hl as <-.
          exists []. split; [reflexivity|right; split; reflexivity]. }
      destruct Hold as (l0 & -> & Hl0).
      assert (Hinv0 : List.NoDup l0
                /\ forall z, In z l0 ->
                     exists j : nat, (j < i)%nat /\ z = 2 ^ Z.of_nat j
                                     /\ nth_error board j = Some c).
      { destruct Hl0 as [Hl0|[_ ->]]; [apply Hinv, Hl0|].
        split; [constructor|intros z []]. }
      destruct Hinv0 as [Hnd Hbits]. split.
      * apply List.NoDup_app; [exact Hnd| |].
        { constructor; [simpl; tauto|constructor]. }
        intros z Hz [<-|[]].
        apply Hbits in Hz as (j & Hj & Hz & _).
        apply Z.pow_inj_r in Hz; lia.
      * intros z Hz. apply in_app_iff in Hz as [Hz|[<-|[]]].
        -- apply Hbits in Hz as (j & Hj & Hz & Hc).
           exists j. repeat split; [lia|assumption..].
        -- exists i. repeat split; [lia|assumption].
    + rewrite lookup_alter_ne in Hl by assumption.
      assert (Hc : boardMap !! c = Some l).
      { destruct (boardMap !! x); [exact Hl|].
        rewrite lookup_insert_ne in Hl by assumption. exact Hl. }
      apply Hinv in Hc as [Hnd Hbits]. split; [exact Hnd|].
      intros z Hz. apply Hbits in Hz as (j & Hj & Hz & Hc).
      exists j. repeat split; [lia|assumption..].
Qed.

(** Every list of the position map holds, once each, bit values of
    squares with its letter. *)
Lemma getBoardPositionMap_bits board c l :
  getBoardPositionMap board !! c = Some l ->
  List.NoDup l
  /\ forall z, In z l -> bitAt (list_ascii_of_string board) c z.
Proof.
  intros Hl.
  assert (Hinv : boardInv (list_ascii_of_string board)
                   (0 + length (list_ascii_of_string board))
                   (getBoardPositionMap board)).
  { apply boardLoop_inv; [reflexivity|].
    intros c' l' H. rewrite lookup_empty in H. discriminate. }
  apply Hinv in Hl as [Hnd Hbits]. split; [exact Hnd|].
  intros z Hz. apply Hbits in Hz as (j & _ & Hz & Hc).
  exists j. split; assumption.
Qed.

Lemma bitAt_isBit board c z : bitAt board c z -> isBit (length board) z.
Proof.
  intros (j & -> & Hj). exists j. split; [|reflexivity].
  apply nth_error_Some. congruence.
Qed.

Lemma bitAt_letter board c c' z : bitAt board c z -> bitAt board c' z -> c = c'.
Proof.
  intros (j & -> & Hj) (j' & Hz & Hj').
  apply Z.pow_inj_r in Hz; [|lia..].
  apply Nat2Z.inj in Hz. subst j'. congruence.
Qed.

End BoardBits.

(** ** Placements *)

Section Placements.

Variable board : list ascii.
Variable boardPositionMap : gmap ascii (list Z).

Hypothesis board_fits : (length board <= 31)%nat.
Hypothesis map_bits : forall c l,
  boardPositionMap !! c = Some l ->
  List.NoDup l /\ forall z, In z l -> bitAt board c z.


Lemma pc_choice posCombos : forall curr m,
  In m (pc posCombos curr) ->
  exists choice, Forall2 (fun g x => In x g) posCombos choice
                 /\ m = fold_left JS.bor choice curr.
Proof.
  induction posCombos as [|opts rest IH]; intros curr m Hm; simpl in Hm.
  - destruct Hm.
  - apply in_flat_map in Hm as (o & Ho & Hm).
    destruct rest as [|opts' rest'].
    + destruct Hm as [<-|[]]. exists [o].
      split; [repeat constructor; exact Ho|reflexivity].
    + apply IH in Hm as (choice & Hchoice & ->).
      exists (o :: choice). split; [constructor; assumption|reflexivity].
Qed.

(** The masks chosen for the letters of a histogram are or-ed into the
    union of distinct bits of the board, as many as the histogram
    counts. *)
Lemma choice_union letterCounts choice :
  List.NoDup (keys letterCounts) ->
  Forall (fun kv => 1 <= snd kv) letterCounts ->
  Forall2 (fun kv x => exists l, boardPositionMap !! fst kv = Some l
                                 /\ In x (kc (snd kv) l 0))
          letterCounts choice ->
  exists bits,
    List.NoDup bits
    /\ (forall z, In z bits ->
          exists c, In c (keys letterCounts) /\ bitAt board c z)
    /\ Z.of_nat (length bits) = total letterCounts
    /\ forall curr, 0 <= curr < 2 ^ 31 ->
         fold_left JS.bor choice curr = Z.lor curr (union bits).
Proof.
  intros Hkeys Hpos Hall.
  induction Hall as [|[c n] x rest choice (l & Hl & Hx) Hall IH].
  - exists []. repeat split; [constructor|intros z []|].
    intros curr _. simpl. rewrite Z.lor_0_r. reflexivity.
  - simpl in Hl, Hx, Hkeys.
    apply List.NoDup_cons_iff in Hkeys as [Hc Hkeys].
    inversion Hpos as [|? ? Hn Hrest]; subst. simpl in Hn.
    destruct (IH Hkeys Hrest) as (bits & Hnd & Hbits & Hlen & Hfold).
    clear IH.
    apply map_bits in Hl as [Hlnd Hlbits].
    replace n with (Z.of_nat (S (Z.to_nat n - 1))) in Hx by lia.
    rewrite kc_combs in Hx.
    apply List.in_map_iff in Hx as (s & <- & Hs).
    apply combs_sublist in Hs as [Hsub Hslen].
    assert (Hsbits : forall z, In z s -> bitAt board c z).
    { intros z Hz. apply Hlbits. eapply sublist_In; eassumption. }
    assert (Hs31 : Forall (isBit 31) s).
    { apply List.Forall_forall. intros z Hz.
      apply isBit_mono with (length board); [exact board_fits|].
      eapply bitAt_isBit, Hsbits, Hz. }
    exists (s ++ bits). repeat split.
    + apply List.NoDup_app;
        [eapply sublist_ListNoDup; eassumption|exact Hnd|].
      intros z Hz1 Hz2. apply Hsbits in Hz1.
      apply Hbits in Hz2 as (c' & Hc' & Hz2).
      rewrite (bitAt_letter _ _ _ _ Hz1 Hz2) in Hc. contradiction.
    + intros z Hz. apply in_app_iff in Hz as [Hz|Hz].
      * exists c. split; [left; reflexivity|apply Hsbits, Hz].
      * apply Hbits in Hz as (c' & Hc' & Hz).
        exists c'. split; [right; exact Hc'|exact Hz].
    + rewrite length_app, Nat2Z.inj_add, Hlen, Hslen.
      unfold total. simpl. lia.
    + intros curr Hcurr. cbn [fold_left].
      rewrite (fold_bor_union s 0) by (assumption || lia).
      rewrite Z.lor_0_l.
      pose proof (union_range 31 s Hs31) as Hr.
      rewrite bor_small by assumption.
      rewrite Hfold by (apply (lor_range 31); assumption).
      rewrite union_app, Z.lor_assoc. reflexivity.
Qed.


End Placements.

Section Generation.

Lemma movesLoop_In boardPositionMap wordStructs : forall moves w bitmap,
  movesLoop boardPositionMap wordStructs = Ok moves ->
  In (w, bitmap) moves ->
  In w wordStructs
  /\ exists posCombos,
       posCombosLoop boardPositionMap (forIn (countBy (ws_letters w)))
       = Ok posCombos
       /\ In bitmap (flattenCombos posCombos).
Proof.
  induction wordStructs as [|w' rest IH]; intros moves w bitmap Hok Hin;
    simpl in Hok.
  - injection Hok as <-. destruct Hin.
  - unfold movesForWord in Hok.
    destruct (posCombosLoop boardPositionMap
                (forIn (countBy (ws_letters w')))) as [posCombos|] eqn:Hpc;
      [|discriminate].
    simpl in Hok.
    destruct (movesLoop boardPositionMap rest) as [more|]; [|discriminate].
    simpl in Hok. injection Hok as <-.
    apply in_app_iff in Hin as [Hin|Hin].
    + apply List.in_map_iff in Hin as (b & Heq & Hb).
      injection Heq as <- <-.
      split; [left; reflexivity|]. exists posCombos. split; assumption.
    + destruct (IH more w bitmap eq_refl Hin) as [Hw Hrest].
      split; [right; exact Hw|exact Hrest].
Qed.

Lemma forIn_histogram letters :
  List.NoDup (keys (forIn (countBy letters)))
  /\ Forall (fun kv => 1 <= snd kv) (forIn (countBy letters))
  /\ total (forIn (countBy letters)) = Z.of_nat (String.length letters).
Proof.
  destruct (countBy_spec letters) as (Hnd & Hpos & Htotal & _).
  pose proof (forIn_Permutation (countBy letters)) as Hperm.
  repeat split.
  - eapply Permutation_NoDup; [|exact Hnd].
    symmetry. apply Permutation_map, Hperm.
  - eapply Permutation_Forall; [symmetry; exact Hperm|exact Hpos].
  - rewrite <- Htotal. unfold total.
    assert (Hsum : forall l1 l2 : list Z,
              Permutation l1 l2 ->
              fold_right Z.add 0 l1 = fold_right Z.add 0 l2).
    { induction 1; simpl; lia. }
    apply Hsum, Permutation_map, Hperm.
Qed.

End Generation.




(** * Further properties of the move scorer *)

(** ** The comparator and the sort *)

Section Comparator.

Ltac case_cmp :=
  unfold byBestMove, JS.or_else, JS.truthy in *;
  repeat match goal with
         | H : context [?x =? 0] |- _ => destruct (Z.eqb_spec x 0); simpl in H
         | |- context [?x =? 0] => destruct (Z.eqb_spec x 0); simpl
         end.

Lemma byBestMove_opp a b : byBestMove b a = - byBestMove a b.
Proof. case_cmp; lia. Qed.

Lemma byBestMove_zero a b :
  byBestMove a b = 0
  <-> gameEnder a = gameEnder b /\ protectedDiff a = protectedDiff b
      /\ vulnerability a = vulnerability b /\ countDiff a = countDiff b
      /\ ws_freq (wordStruct a) = ws_freq (wordStruct b).
Proof. split; intros H; case_cmp; lia. Qed.

Lemma sortInsert_Permutation {A} (cmp : A -> A -> Z) x l :
  Permutation (sortInsert cmp x l) (x :: l).
Proof.
  induction l as [|y l IH]; simpl; [reflexivity|].
  destruct (cmp x y <=? 0); [reflexivity|].
  rewrite IH. apply perm_swap.
Qed.

End Comparator.

(** [byBestMove] is a consistent comparator, as [sort] needs: swapping the
    arguments flips the sign, the order it induces is transitive, and it
    is 0 exactly when the five keys of the tie-break chain agree. *)
Theorem byBestMove_consistent (a b c : ScoredMove) :
  byBestMove b a = - byBestMove a b
  /\ (byBestMove a b <= 0 -> byBestMove b c <= 0 -> byBestMove a c <= 0)
  /\ (byBestMove a b = 0
      <-> gameEnder a = gameEnder b /\ protectedDiff a = protectedDiff b
          /\ vulnerability a = vulnerability b /\ countDiff a = countDiff b
          /\ ws_freq (wordStruct a) = ws_freq (wordStruct b)).
Proof.
  split; [apply byBestMove_opp|]. split; [|apply byBestMove_zero].
  apply mayPrecede_trans.
Qed.

Lemma byBestMove_consistent_witness :
  byBestMove (scoreMove boardConfig 0 0 (word_cab, 35))
             (scoreMove boardConfig 0 0 (word_cad, 3))
  = - byBestMove (scoreMove boardConfig 0 0 (word_cad, 3))
                 (scoreMove boardConfig 0 0 (word_cab, 35))
  /\ byBestMove (scoreMove boardConfig 0 0 (word_cab, 35))
                (scoreMove boardConfig 0 0 (word_cab, 3)) <= 0.
Proof.
  split.
  - apply (byBestMove_consistent (scoreMove boardConfig 0 0 (word_cad, 3))
             (scoreMove boardConfig 0 0 (word_cab, 35))
             (scoreMove boardConfig 0 0 (word_cab, 35))).
  - apply (byBestMove_consistent (scoreMove boardConfig 0 0 (word_cab, 35))
             (scoreMove boardConfig 0 0 (word_cad, 35))
             (scoreMove boardConfig 0 0 (word_cab, 3)));
      vm_compute; discriminate.
Defined.

(** [sort] returns the moves it was given, each as often as it was given,
    whatever the comparator. *)
Theorem sort_Permutation {A} (cmp : A -> A -> Z) (l : list A) :
  Permutation (sort cmp l) l.
Proof.
  induction l as [|x l IH]; simpl; [reflexivity|].
  rewrite sortInsert_Permutation. constructor. exact IH.
Qed.

(** ** The filter *)

Section Filter.

Lemma filterLoop_sublist latestScore seen l :
  filterLoop latestScore seen l `sublist_of` l.
Proof.
  revert latestScore seen.
  induction l as [|x l IH]; intros latestScore seen; simpl; [constructor|].
  destruct (_ || _); constructor; apply IH.
Qed.

Lemma filterLoop_head latestScore seen l a rest :
  filterLoop latestScore seen l = a :: rest ->
  scoreOf a <> latestScore
  /\ (wordOf a ∉ seen)
  /\ ~ In (wordOf a) objectPrototypeKeys
  /\ exists l', rest = filterLoop (scoreOf a) ({[wordOf a]} ∪ seen) l'.
Proof.
  revert latestScore seen.
  induction l as [|x l IH]; intros latestScore seen; simpl; [discriminate|].
  destruct (seenTruthy seen (ws_word (wordStruct x))) eqn:Hseen; simpl;
    [apply IH|].
  destruct (Z.eqb_spec (protectedDiff x + countDiff x) latestScore) as [|Hne];
    [apply IH|].
  intros H. injection H as <- <-.
  unfold seenTruthy in Hseen. apply orb_false_elim in Hseen as [Hs Hp].
  apply bool_decide_eq_false in Hs. apply bool_decide_eq_false in Hp.
  repeat split; [exact Hne|exact Hs| |exists l; reflexivity].
  intros Hin. apply Hp, list_elem_of_In, Hin.
Qed.

Lemma filterLoop_idem l : forall latestScore seen,
  filterLoop latestScore seen (filterLoop latestScore seen l)
  = filterLoop latestScore seen l.
Proof.
  induction l as [|x l IH]; intros latestScore seen; simpl; [reflexivity|].
  destruct (seenTruthy seen (ws_word (wordStruct x))
            || (protectedDiff x + countDiff x =? latestScore)) eqn:Hdrop.
  - apply IH.
  - simpl. rewrite Hdrop. f_equal. apply IH.
Qed.

End Filter.

(** [filterMoves] only drops moves: the result is the input with some
    entries left out, in the same order. *)
Theorem filterMoves_sublist (moves : list ScoredMove) :
  filterMoves moves `sublist_of` moves.
Proof. apply filterLoop_sublist. Qed.

(** In the result of [filterMoves], the first move has a total
    [protectedDiff + countDiff] other than 0, and no move has the total of
    the move just before it. *)
Theorem filterMoves_totals_change (moves : list ScoredMove) :
  (forall a, filterMoves moves !! 0%nat = Some a -> scoreOf a <> 0)
  /\ (forall i a b,
        filterMoves moves !! i = Some a ->
        filterMoves moves !! S i = Some b ->
        scoreOf b <> scoreOf a).
Proof.
  unfold filterMoves. generalize 0 as latestScore.
  generalize (∅ : gset string) as seen.
  intros seen latestScore.
  remember (filterLoop latestScore seen moves) as out eqn:Hout.
  revert latestScore seen moves Hout.
  induction out as [|x out IH]; intros latestScore seen moves Hout.
  - split; intros; discriminate.
  - symmetry in Hout. apply filterLoop_head in Hout
      as (Hx & _ & _ & l' & Hrest).
    destruct (IH _ _ _ Hrest) as [Hfirst Hnext].
    split.
    + intros a Ha. simpl in Ha. injection Ha as <-. exact Hx.
    + intros [|i] a b Ha Hb; simpl in Ha, Hb.
      * injection Ha as <-. apply Hfirst. exact Hb.
      * eapply Hnext; eassumption.
Qed.

Lemma filterMoves_totals_change_witness :
  scoreOf (scoreMove boardConfig 0 0 (word_cad, 3))
  <> scoreOf (scoreMove boardConfig 0 0 (word_cab, 35)).
Proof.
  apply (filterMoves_totals_change
           [scoreMove boardConfig 0 0 (word_cab, 35);
            scoreMove boardConfig 0 0 (word_cad, 3)]) with (i := 0%nat);
    vm_compute; reflexivity.
Defined.

(** [filterMoves] never keeps a move whose word text is the name of a
    property that the fresh object [seen] inherits, such as "constructor":
    [seen[word]] is truthy for it from the start. *)
Theorem filterMoves_inherited_names (moves : list ScoredMove)
    (move : ScoredMove) :
  In (wordOf move) objectPrototypeKeys ->
  ~ In move (filterMoves moves).
Proof.
  unfold filterMoves. generalize 0 as latestScore.
  generalize (∅ : gset string) as seen.
  induction moves as [|x l IH]; intros seen latestScore Hname; simpl;
    [tauto|].
  destruct (seenTruthy seen (ws_word (wordStruct x))) eqn:Hseen; simpl;
    [apply IH, Hname|].
  destruct (_ =? latestScore); [apply IH, Hname|].
  intros [->|Hin]; [|revert Hin; apply IH, Hname].
  unfold seenTruthy in Hseen. apply orb_false_elim in Hseen as [_ Hp].
  apply bool_decide_eq_false in Hp. apply Hp, list_elem_of_In, Hname.
Qed.

Lemma filterMoves_inherited_names_witness :
  ~ In (scoreMove boardConfig 0 0
          ({| ws_word := "constructor"; ws_letters := "constructor";
              ws_freq := 1 |}, 35))
       (filterMoves
          [scoreMove boardConfig 0 0
             ({| ws_word := "constructor"; ws_letters := "constructor";
                 ws_freq := 1 |}, 35)]).
Proof.
  apply filterMoves_inherited_names. simpl. tauto.
Defined.

(** Filtering a filtered list changes nothing. *)
Theorem filterMoves_idempotent (moves : list ScoredMove) :
  filterMoves (filterMoves moves) = filterMoves moves.
Proof. apply filterLoop_idem. Qed.

(** ** Ownership after a move *)

(** On every bit below the sign bit: our squares stay ours; a square is
    theirs afterwards only if it was theirs before and is not ours now;
    a square of theirs is still claimed by one of the sides; and a square
    is ours afterwards only if it was ours or the word covers it. *)
Theorem scoreMove_ownership lpConfig oursBitMask theirsBitMask move i :
  0 <= i < 31 ->
  let s := scoreMove lpConfig oursBitMask theirsBitMask move in
  (Z.testbit oursBitMask i = true -> Z.testbit (newOursBitMask s) i = true)
  /\ (Z.testbit (newTheirsBitMask s) i = true ->
      Z.testbit theirsBitMask i = true
      /\ Z.testbit (newOursBitMask s) i = false)
  /\ (Z.testbit theirsBitMask i = true ->
      Z.testbit (newOursBitMask s) i = true
      \/ Z.testbit (newTheirsBitMask s) i = true)
  /\ (Z.testbit (newOursBitMask s) i = true ->
      Z.testbit oursBitMask i = true \/ Z.testbit (snd move) i = true).
Proof.
  intros Hi s. subst s.
  cbn [scoreMove newOursBitMask newTheirsBitMask].
  set (theirsProtected := lpBitMask.getProtectedBitMask theirsBitMask).
  rewrite !band_testbit, !bnot_testbit, !bor_testbit, !band_testbit,
    !bnot_testbit by lia.
  repeat rewrite (Z.min_l i 31) by lia.
  destruct (Z.testbit oursBitMask i), (Z.testbit theirsBitMask i),
    (Z.testbit (snd move) i), (Z.testbit theirsProtected i); simpl;
    intuition congruence.
Qed.

Lemma scoreMove_ownership_witness :
  let s := scoreMove boardConfig 1 6 (word_cab, 7) in
  (Z.testbit 1 1 = true -> Z.testbit (newOursBitMask s) 1 = true)
  /\ (Z.testbit (newTheirsBitMask s) 1 = true ->
      Z.testbit 6 1 = true /\ Z.testbit (newOursBitMask s) 1 = false)
  /\ (Z.testbit 6 1 = true ->
      Z.testbit (newOursBitMask s) 1 = true
      \/ Z.testbit (newTheirsBitMask s) 1 = true)
  /\ (Z.testbit (newOursBitMask s) 1 = true ->
      Z.testbit 1 1 = true \/ Z.testbit (snd (word_cab, 7)) 1 = true).
Proof.
  apply (scoreMove_ownership boardConfig 1 6 (word_cab, 7) 1). lia.
Defined.

(** ** The adjacency table *)

Lemma adjacent_grid_check :
  forallb (fun i =>
    (fst (nth i lpBitMask.adjacent (0, 0)) =? 2 ^ Z.of_nat i)
    && forallb (fun j =>
         Bool.eqb (Z.testbit (adjacentOf i) (Z.of_nat j))
                  (gridAdjacent i j)) (seq 0 25))
    (seq 0 25) = true.
Proof. vm_compute. reflexivity. Qed.

Lemma adjacentOf_grid (i j : nat) :
  (i < 25)%nat -> (j < 25)%nat ->
  Z.testbit (adjacentOf i) (Z.of_nat j) = gridAdjacent i j.
Proof.
  intros Hi Hj. pose proof adjacent_grid_check as Hall.
  rewrite forallb_forall in Hall.
  specialize (Hall i ltac:(apply in_seq; lia)).
  apply andb_true_iff in Hall as [_ Hsnd].
  rewrite forallb_forall in Hsnd.
  specialize (Hsnd j ltac:(apply in_seq; lia)).
  apply Bool.eqb_prop, Hsnd.
Qed.

(** The table lists the 25 squares in order, and the neighbours of a
    square are the squares beside it in its row and in its column of the
    5 x 5 board, and no bit outside the board. *)
Theorem adjacent_is_grid (i j : nat) :
  (i < 25)%nat -> (j < 25)%nat ->
  length lpBitMask.adjacent = 25%nat
  /\ fst (nth i lpBitMask.adjacent (0, 0)) = 2 ^ Z.of_nat i
  /\ Z.testbit (snd (nth i lpBitMask.adjacent (0, 0))) (Z.of_nat j)
     = gridAdjacent i j
  /\ 0 <= snd (nth i lpBitMask.adjacent (0, 0)) < 2 ^ 25.
Proof.
  intros Hi Hj. split; [reflexivity|].
  split.
  - pose proof adjacent_grid_check as Hall.
    rewrite forallb_forall in Hall.
    specialize (Hall i ltac:(apply in_seq; lia)).
    apply andb_true_iff in Hall as [Hfst _]. apply Z.eqb_eq, Hfst.
  - split; [apply adjacentOf_grid; assumption|].
    apply (adjacentOf_range i Hi).
Qed.

Lemma adjacent_is_grid_witness :
  length lpBitMask.adjacent = 25%nat
  /\ fst (nth 7 lpBitMask.adjacent (0, 0)) = 2 ^ Z.of_nat 7
  /\ Z.testbit (snd (nth 7 lpBitMask.adjacent (0, 0))) (Z.of_nat 12)
     = gridAdjacent 7 12
  /\ 0 <= snd (nth 7 lpBitMask.adjacent (0, 0)) < 2 ^ 25.
Proof.
  apply (adjacent_is_grid 7 12); lia.
Defined.

(** ** Vulnerability, continued *)

Section VulnerabilityZero.

Lemma countBits_nonneg x : 0 <= lpBitMask.countBits x.
Proof. unfold lpBitMask.countBits. lia. Qed.

Lemma countBits_zero x :
  lpBitMask.countBits x = 0
  <-> forall k : nat, (k < 32)%nat -> Z.testbit x (Z.of_nat k) = false.
Proof.
  unfold lpBitMask.countBits. split.
  - intros H k Hk.
    destruct (Z.testbit x (Z.of_nat k)) eqn:Hbit; [|reflexivity].
    assert (Hin : In k (List.filter (fun i => Z.testbit x (Z.of_nat i))
                                    (seq 0 32))).
    { apply filter_In. split; [apply in_seq; lia|exact Hbit]. }
    destruct (List.filter _ _); [destruct Hin|simpl in H; lia].
  - intros H.
    destruct (List.filter (fun i => Z.testbit x (Z.of_nat i)) (seq 0 32))
      as [|k l] eqn:E; [reflexivity|]. exfalso.
    assert (Hk : In k (List.filter (fun i => Z.testbit x (Z.of_nat i))
                                   (seq 0 32))) by (rewrite E; now left).
    apply filter_In in Hk as [Hk Hbit].
    apply in_seq in Hk. rewrite H in Hbit by lia. discriminate.
Qed.

Lemma sum_nonneg_zero (l : list Z) :
  Forall (fun x => 0 <= x) l ->
  0 <= fold_right Z.add 0 l
  /\ (fold_right Z.add 0 l = 0 <-> Forall (fun x => x = 0) l).
Proof.
  induction 1 as [|x l Hx Hl [IH1 IH2]]; simpl.
  - split; [lia|]. split; [constructor|reflexivity].
  - split; [lia|]. split.
    + intros H. constructor; [lia|]. apply IH2. lia.
    + intros H. inversion H; subst. apply IH2 in H3. lia.
Qed.

Lemma neighbours_term_zero bitMask (i : nat) :
  (i < 25)%nat ->
  (if Z.testbit bitMask (Z.of_nat i)
   then lpBitMask.countBits (Z.land (adjacentOf i) (Z.lnot bitMask))
   else 0) = 0
  <-> (Z.testbit bitMask (Z.of_nat i) = true ->
       forall j : nat, (j < 25)%nat -> gridAdjacent i j = true ->
                       Z.testbit bitMask (Z.of_nat j) = true).
Proof.
  intros Hi. destruct (Z.testbit bitMask (Z.of_nat i)); [|split; intros; congruence].
  rewrite countBits_zero. split.
  - intros H _ j Hj Hadj. specialize (H j ltac:(lia)).
    rewrite Z.land_spec, Z.lnot_spec, adjacentOf_grid, Hadj in H by lia.
    destruct (Z.testbit bitMask (Z.of_nat j)); [reflexivity|discriminate].
  - intros H k Hk. rewrite Z.land_spec, Z.lnot_spec by lia.
    destruct (Nat.lt_ge_cases k 25) as [Hlt|Hge].
    + rewrite adjacentOf_grid by assumption.
      destruct (gridAdjacent i k) eqn:Hadj; [|reflexivity].
      rewrite (H eq_refl k Hlt Hadj). reflexivity.
    + rewrite (bits_above 25 (adjacentOf i)); [reflexivity| |lia].
      apply adjacentOf_range, Hi.
Qed.

End VulnerabilityZero.

(** The vulnerability is never negative, and it is 0 exactly when every
    board square of the mask has all its neighbours on the board in the
    mask. *)
Theorem getVulnerability_zero (bitMask : Z) :
  0 <= getVulnerability bitMask
  /\ (getVulnerability bitMask = 0
      <-> forall i j : nat,
            (i < 25)%nat -> (j < 25)%nat ->
            Z.testbit bitMask (Z.of_nat i) = true ->
            gridAdjacent i j = true ->
            Z.testbit bitMask (Z.of_nat j) = true).
Proof.
  rewrite getVulnerability_spec. unfold neighboursOutside.
  set (term := fun i : nat =>
         if Z.testbit bitMask (Z.of_nat i)
         then lpBitMask.countBits (Z.land (adjacentOf i) (Z.lnot bitMask))
         else 0).
  assert (Hnonneg : Forall (fun x => 0 <= x) (map term (seq 0 25))).
  { apply List.Forall_forall. intros x Hx.
    apply List.in_map_iff in Hx as (i & <- & _). unfold term.
    destruct (Z.testbit bitMask (Z.of_nat i)); [apply countBits_nonneg|lia]. }
  destruct (sum_nonneg_zero _ Hnonneg) as [H0 Hzero].
  split; [exact H0|]. rewrite Hzero, List.Forall_forall. split.
  - intros H i j Hi Hj Hbit Hadj.
    assert (Hterm : term i = 0).
    { apply H, List.in_map_iff. exists i. split; [reflexivity|].
      apply in_seq. lia. }
    unfold term in Hterm.
    exact (proj1 (neighbours_term_zero bitMask i Hi) Hterm Hbit j Hj Hadj).
  - intros H x Hx. apply List.in_map_iff in Hx as (i & <- & Hi).
    apply in_seq in Hi. unfold term. apply neighbours_term_zero; [lia|].
    intros Hbit j Hj Hadj. apply (H i j); auto; lia.
Qed.

Lemma getVulnerability_zero_witness :
  0 <= getVulnerability 35
  /\ (getVulnerability 35 = 0
      <-> forall i j : nat,
            (i < 25)%nat -> (j < 25)%nat ->
            Z.testbit 35 (Z.of_nat i) = true ->
            gridAdjacent i j = true ->
            Z.testbit 35 (Z.of_nat j) = true).
Proof. apply (getVulnerability_zero 35). Defined.

(** ** The entries of the result *)

(** Every entry that [getTopMoves] returns is made from one of the moves
    it was given: it carries the word text and the bitmap of that move,
    and the masks and the flag of its scored move. *)
Theorem getTopMoves_from_moves lpConfig moves oursBitMask theirsBitMask e :
  In e (getTopMoves lpConfig moves oursBitMask theirsBitMask) ->
  exists move,
    In move moves
    /\ tm_word e = ws_word (fst move)
    /\ tm_wordBitMask e = snd move
    /\ e = toTopMove (scoreMove lpConfig oursBitMask theirsBitMask move).
Proof.
  intros He. apply getTopMoves_entries in He as (move & Hmove & ->).
  exists move. repeat split. exact Hmove.
Qed.

Lemma getTopMoves_from_moves_witness :
  exists move,
    In move [(word_cad, 3); (word_cab, 35)]
    /\ tm_word {| tm_word := "cab"; tm_wordBitMask := 35;
                  tm_newOursBitMask := 35; tm_newTheirsBitMask := 0;
                  tm_gameEnder := 0 |} = ws_word (fst move)
    /\ tm_wordBitMask
         {| tm_word := "cab"; tm_wordBitMask := 35;
            tm_newOursBitMask := 35; tm_newTheirsBitMask := 0;
            tm_gameEnder := 0 |} = snd move
    /\ {| tm_word := "cab"; tm_wordBitMask := 35; tm_newOursBitMask := 35;
          tm_newTheirsBitMask := 0; tm_gameEnder := 0 |}
       = toTopMove (scoreMove boardConfig 0 0 move).
Proof.
  apply (getTopMoves_from_moves boardConfig [(word_cad, 3); (word_cab, 35)]).
  vm_compute. tauto.
Defined.

(** * Further properties of the move generator *)

(** ** The board index, in full *)

Section LetterBits.

Lemma boardLoop_lookup board : forall i boardMap c,
  boardLoop i board boardMap !! c
  = match boardMap !! c, letterBits c i board with
    | Some l0, l => Some (l0 ++ l)
    | None, [] => None
    | None, l => Some l
    end.
Proof.
  induction board as [|x rest IH]; intros i boardMap c.
  - simpl. destruct (boardMap !! c); [rewrite app_nil_r|]; reflexivity.
  - cbn [boardLoop letterBits]. rewrite IH.
    destruct (decide (x = c)) as [->|Hne].
    + rewrite lookup_alter_eq.
      destruct (boardMap !! c) as [l0|] eqn:Hc.
      * rewrite Hc. simpl. rewrite <- app_assoc. reflexivity.
      * rewrite lookup_insert_eq. reflexivity.
    + rewrite lookup_alter_ne by assumption.
      assert (Hsame : (match boardMap !! x with
                       | Some _ => boardMap
                       | None => <[x:=[]]> boardMap
                       end) !! c = boardMap !! c).
      { destruct (boardMap !! x); [reflexivity|].
        apply lookup_insert_ne. assumption. }
      rewrite Hsame. reflexivity.
Qed.

Lemma letterBits_In c board : forall i z,
  In z (letterBits c i board)
  <-> exists j : nat, z = 2 ^ Z.of_nat (i + j) /\ nth_error board j = Some c.
Proof.
  induction board as [|x rest IH]; intros i z; simpl.
  - split; [tauto|]. intros ([|j] & _ & H); discriminate.
  - rewrite in_app_iff, IH. split.
    + intros [Hz|(j & -> & Hj)].
      * destruct (decide (x = c)) as [->|]; [|destruct Hz].
        destruct Hz as [<-|[]]. exists 0%nat.
        rewrite Nat.add_0_r. split; reflexivity.
      * exists (S j). replace (i + S j)%nat with (S i + j)%nat by lia.
        split; [reflexivity|exact Hj].
    + intros ([|j] & -> & Hj); simpl in Hj.
      * injection Hj as ->. left. rewrite Nat.add_0_r.
        destruct (decide (c = c)); [now left|contradiction].
      * right. exists j. replace (i + S j)%nat with (S i + j)%nat by lia.
        split; [reflexivity|exact Hj].
Qed.

Lemma letterBits_length c board : forall i,
  length (letterBits c i board) = count_occ ascii_dec board c.
Proof.
  induction board as [|x rest IH]; intros i; simpl; [reflexivity|].
  rewrite length_app, IH.
  destruct (decide (x = c)), (ascii_dec x c); simpl; congruence.
Qed.

Lemma letterBits_sorted c board : forall i,
  StronglySorted Z.lt (letterBits c i board).
Proof.
  induction board as [|x rest IH]; intros i; simpl; [constructor|].
  destruct (decide (x = c)); simpl; [|apply IH].
  constructor; [apply IH|].
  apply List.Forall_forall. intros z Hz.
  apply letterBits_In in Hz as (j & -> & _).
  apply Z.pow_lt_mono_r; lia.
Qed.

Lemma getBoardPositionMap_lookup board c :
  getBoardPositionMap board !! c
  = match letterBits c 0 (list_ascii_of_string board) with
    | [] => None
    | l => Some l
    end.
Proof.
  unfold getBoardPositionMap. rewrite boardLoop_lookup, lookup_empty.
  reflexivity.
Qed.

End LetterBits.

(** [getBoardPositionMap] maps a letter to the bit values [2^j] of exactly
    the squares [j] that hold it, each once and in ascending order, and
    has no entry for a letter that is not on the board. *)
Theorem getBoardPositionMap_spec (board : string) (c : ascii) :
  let squares := letterBits c 0 (list_ascii_of_string board) in
  getBoardPositionMap board !! c
  = match squares with [] => None | _ => Some squares end
  /\ (forall j : nat, In (2 ^ Z.of_nat j) squares
                      <-> nth_error (list_ascii_of_string board) j = Some c)
  /\ (forall z, In z squares -> exists j : nat, z = 2 ^ Z.of_nat j)
  /\ StronglySorted Z.lt squares
  /\ length squares = count_occ ascii_dec (list_ascii_of_string board) c.
Proof.
  intros squares. subst squares.
  split; [rewrite getBoardPositionMap_lookup; destruct (letterBits _ _ _); reflexivity|].
  split; [|split; [|split]].
  - intros j. rewrite letterBits_In. split.
    + intros (j' & Hz & Hj). simpl in Hz.
      apply Z.pow_inj_r in Hz; [|lia..].
      apply Nat2Z.inj in Hz. subst j'. exact Hj.
    + intros Hj. exists j. split; [reflexivity|exact Hj].
  - intros z Hz. apply letterBits_In in Hz as (j & -> & _).
    exists j. reflexivity.
  - apply letterBits_sorted.
  - apply letterBits_length.
Qed.

(** ** Combinations, continued *)

Section Combinations.

Lemma kc_below_one bits : forall count curr,
  count < 1 -> kc count bits curr = [].
Proof.
  induction bits as [|b rest IH]; intros count curr Hcount; simpl;
    [reflexivity|].
  destruct (Z.eqb_spec count 1) as [|_]; [lia|].
  rewrite !IH by lia. reflexivity.
Qed.

Lemma combs_complete {A} (s l : list A) :
  s `sublist_of` l -> In s (combs (length s) l).
Proof.
  induction 1 as [|x s l Hsub IH|x s l Hsub IH].
  - simpl. now left.
  - simpl. apply in_app_iff. left. apply in_map, IH.
  - destruct s as [|y s].
    + destruct l; simpl; now left.
    + cbn [length combs] in *. apply in_app_iff. right. exact IH.
Qed.

End Combinations.

(** For a count of 0 or less, [kCombinations] returns the empty list: the
    count never reaches 1 on the way down. *)
Theorem kCombinations_nonpositive (bits : list Z) (count : Z) :
  count <= 0 -> kCombinations (Some bits) count = Ok [].
Proof.
  intros Hcount. unfold kCombinations.
  destruct (Z.eqb_spec count 0); [reflexivity|].
  rewrite kc_below_one by lia. reflexivity.
Qed.

Lemma kCombinations_nonpositive_witness :
  kCombinations (Some [1; 2; 4]) (-2) = Ok [].
Proof. apply kCombinations_nonpositive. lia. Defined.

Lemma kc_complete (positions s : list Z) :
  Forall (isBit 31) positions ->
  s `sublist_of` positions -> s <> [] ->
  In (union s) (kc (Z.of_nat (length s)) positions 0).
Proof.
  intros Hbits Hsub Hne.
  destruct s as [|z s']; [contradiction|].
  set (s := z :: s') in *.
  change (length s) with (S (length s')). rewrite kc_combs.
  apply List.in_map_iff. exists s. split.
  - rewrite fold_bor_union; [apply Z.lor_0_l| |lia].
    eapply sublist_Forall; eassumption.
  - apply (combs_complete s positions Hsub).
Qed.

(** [kCombinations] misses no combination: for bit values below bit 31,
    the union of every non-empty selection of the positions is among the
    masks returned for the size of the selection. *)
Theorem kCombinations_complete (positions s : list Z) :
  Forall (isBit 31) positions ->
  s `sublist_of` positions -> s <> [] ->
  exists masks,
    kCombinations (Some positions) (Z.of_nat (length s)) = Ok masks
    /\ In (union s) masks.
Proof.
  intros Hbits Hsub Hne. unfold kCombinations.
  destruct (Z.eqb_spec (Z.of_nat (length s)) 0) as [H|_].
  { destruct s; [contradiction|simpl in H; lia]. }
  eexists. split; [reflexivity|].
  apply kc_complete; assumption.
Qed.

Lemma kCombinations_complete_witness :
  exists masks,
    kCombinations (Some [1; 2; 4; 8]) (Z.of_nat (length [2; 8])) = Ok masks
    /\ In (union [2; 8]) masks.
Proof.
  apply (kCombinations_complete [1; 2; 4; 8] [2; 8]).
  - repeat constructor;
      [exists 0%nat|exists 1%nat|exists 2%nat|exists 3%nat];
      (split; [lia|reflexivity]).
  - apply sublist_cons, sublist_skip, sublist_cons, sublist_skip, sublist_nil.
  - discriminate.
Defined.

(** ** The cross product *)

Section Cartesian.

Lemma pc_cartesian posCombos : forall curr,
  posCombos <> [] ->
  pc posCombos curr
  = map (fun choice => fold_left JS.bor choice curr) (cartesian posCombos).
Proof.
  induction posCombos as [|opts rest IH]; intros curr Hne; [contradiction|].
  cbn [pc cartesian]. clear Hne.
  induction opts as [|o opts IHo]; [reflexivity|].
  cbn [flat_map]. rewrite map_app, map_map, IHo. f_equal.
  destruct rest as [|g rest']; [reflexivity|].
  rewrite IH by discriminate. reflexivity.
Qed.

Lemma cartesian_length {A} (groups : list (list A)) :
  length (cartesian groups) = product (map (@length A) groups).
Proof.
  induction groups as [|g rest IH]; [reflexivity|].
  cbn [cartesian map product fold_right]. fold (product (map (@length A) rest)).
  rewrite <- IH. clear IH.
  induction g as [|o g IHg]; [reflexivity|].
  cbn [flat_map length]. rewrite length_app, length_map, IHg. lia.
Qed.

Lemma cartesian_In {A} (groups : list (list A)) choice :
  In choice (cartesian groups) <-> Forall2 (fun g x => In x g) groups choice.
Proof.
  revert choice. induction groups as [|g rest IH]; intros choice; simpl.
  - split; [intros [<-|[]]; constructor|].
    intros H. inversion H. now left.
  - rewrite in_flat_map. split.
    + intros (o & Ho & Hc). apply List.in_map_iff in Hc as (c' & <- & Hc').
      constructor; [exact Ho|apply IH, Hc'].
    + intros H. inversion H as [|? x ? c' Hx Hrest]; subst.
      exists x. split; [exact Hx|]. apply in_map, IH, Hrest.
Qed.

End Cartesian.

(** [flattenCombos] returns, for a non-empty list of groups, the masks of
    the cross product in depth-first order: one choice from each group,
    or-ed together from 0.  For no group at all it returns nothing. *)
Theorem flattenCombos_cartesian (posCombos : list (list Z)) :
  flattenCombos posCombos
  = match posCombos with
    | [] => []
    | _ :: _ =>
        map (fun choice => fold_left JS.bor choice 0) (cartesian posCombos)
    end.
Proof.
  unfold flattenCombos. destruct posCombos as [|g rest]; [reflexivity|].
  apply pc_cartesian. discriminate.
Qed.

(** A mask is returned by [flattenCombos] exactly when it is one choice
    from each of the groups, or-ed together; the number of masks returned is
    the product of the sizes of the groups, so one empty group leaves
    none. *)
Theorem flattenCombos_choices (posCombos : list (list Z)) (m : Z) :
  posCombos <> [] ->
  length (flattenCombos posCombos) = product (map (@length Z) posCombos)
  /\ (In m (flattenCombos posCombos)
      <-> exists choice,
            Forall2 (fun g x => In x g) posCombos choice
            /\ m = fold_left JS.bor choice 0).
Proof.
  intros Hne. unfold flattenCombos. rewrite pc_cartesian by assumption.
  split; [rewrite length_map; apply cartesian_length|].
  rewrite List.in_map_iff. split.
  - intros (choice & <- & Hin). exists choice.
    split; [apply cartesian_In, Hin|reflexivity].
  - intros (choice & Hall & ->). exists choice.
    split; [reflexivity|apply cartesian_In, Hall].
Qed.

Lemma flattenCombos_choices_witness :
  length (flattenCombos [[4]; [1]; [2; 8]])
  = product (map (@length Z) [[4]; [1]; [2; 8]])
  /\ (In 13 (flattenCombos [[4]; [1]; [2; 8]])
      <-> exists choice,
            Forall2 (fun g x => In x g) [[4]; [1]; [2; 8]] choice
            /\ 13 = fold_left JS.bor choice 0).
Proof.
  apply flattenCombos_choices. discriminate.
Defined.

Lemma getBoardPositionMap_spec_witness :
  let squares := letterBits "b" 0 (list_ascii_of_string "abcb") in
  getBoardPositionMap "abcb" !! "b"%char
  = match squares with [] => None | _ => Some squares end
  /\ (forall j : nat, In (2 ^ Z.of_nat j) squares
                      <-> nth_error (list_ascii_of_string "abcb") j
                          = Some "b"%char)
  /\ (forall z, In z squares -> exists j : nat, z = 2 ^ Z.of_nat j)
  /\ StronglySorted Z.lt squares
  /\ length squares
     = count_occ ascii_dec (list_ascii_of_string "abcb") "b"%char.
Proof. apply (getBoardPositionMap_spec "abcb" "b"%char). Defined.

(** ** Faults and composition of the move generator *)

Section Generator.

Lemma posCombosLoop_defined boardPositionMap letterCounts :
  (forall kv, In kv letterCounts -> boardPositionMap !! fst kv <> None) ->
  exists posCombos,
    posCombosLoop boardPositionMap letterCounts = Ok posCombos.
Proof.
  induction letterCounts as [|[c n] rest IH]; intros Hall; simpl.
  - eexists. reflexivity.
  - destruct IH as [more Hmore]; [intros kv Hkv; apply Hall; now right|].
    rewrite Hmore.
    pose proof (Hall (c, n) ltac:(now left)) as Hc. simpl in Hc.
    destruct (boardPositionMap !! c) as [l|]; [|contradiction].
    unfold kCombinations. destruct (n =? 0); eexists; reflexivity.
Qed.

Lemma movesForWord_defined board w :
  (forall c, In c (list_ascii_of_string (ws_letters w)) ->
             In c (list_ascii_of_string board)) ->
  exists moves, movesForWord (getBoardPositionMap board) w = Ok moves.
Proof.
  intros Hall. unfold movesForWord.
  destruct (posCombosLoop_defined (getBoardPositionMap board)
              (forIn (countBy (ws_letters w)))) as [posCombos ->].
  - intros [c n] Hkv. simpl. apply (proj1 (forIn_In _ _)) in Hkv.
    destruct (countBy_spec (ws_letters w)) as (_ & _ & _ & Hkeys).
    assert (Hc : In c (list_ascii_of_string (ws_letters w))).
    { apply Hkeys. unfold keys. apply List.in_map_iff.
      exists (c, n). split; [reflexivity|exact Hkv]. }
    apply Hall in Hc. intros Hnone.
    apply boardLoop_lookup_None in Hnone as [_ Hnot]. contradiction.
  - eexists. reflexivity.
Qed.

Lemma movesLoop_app boardPositionMap ws1 ws2 :
  movesLoop boardPositionMap (ws1 ++ ws2)
  = (m1 <- movesLoop boardPositionMap ws1 ;;
     m2 <- movesLoop boardPositionMap ws2 ;;
     Ok (m1 ++ m2)).
Proof.
  induction ws1 as [|w ws1 IH]; simpl.
  - destruct (movesLoop boardPositionMap ws2); reflexivity.
  - destruct (movesForWord boardPositionMap w) as [here|]; [|reflexivity].
    simpl. rewrite IH.
    destruct (movesLoop boardPositionMap ws1) as [m1|]; [|reflexivity].
    simpl.
    destruct (movesLoop boardPositionMap ws2) as [m2|]; [|reflexivity].
    simpl. rewrite app_assoc. reflexivity.
Qed.

End Generator.

(** [getMovesForBoard] returns a list of moves, and raises no fault,
    exactly when every letter of every word of the list is on the
    board. *)
Theorem getMovesForBoard_defined (board : string)
    (wordStructs : list WordStruct) :
  (exists moves, getMovesForBoard board wordStructs = Ok moves)
  <-> (forall w c,
         In w wordStructs ->
         In c (list_ascii_of_string (ws_letters w)) ->
         In c (list_ascii_of_string board)).
Proof.
  unfold getMovesForBoard. split.
  - intros [moves Hok] w c Hw Hc.
    destruct (in_dec ascii_dec c (list_ascii_of_string board)) as [|Hnot];
      [assumption|].
    rewrite (movesLoop_fault _ _ w Hw) in Hok; [discriminate|].
    apply movesForWord_absent_letter with c; assumption.
  - induction wordStructs as [|w rest IH]; intros Hall; simpl.
    + eexists. reflexivity.
    + destruct (movesForWord_defined board w) as [here ->].
      { intros c Hc. apply (Hall w c); [now left|exact Hc]. }
      destruct IH as [more ->].
      { intros w' c Hw' Hc. apply (Hall w' c); [now right|exact Hc]. }
      eexists. reflexivity.
Qed.

Lemma getMovesForBoard_defined_witness :
  exists moves, getMovesForBoard "abcb" [word_cab] = Ok moves.
Proof.
  apply getMovesForBoard_defined.
  intros w c [<-|[]] Hc. simpl in *.
  destruct Hc as [<-|[<-|[<-|[]]]]; tauto.
Defined.

(** The moves for a list of words are the moves for its first part
    followed by the moves for the rest; a fault in either part is the
    fault of the whole. *)
Theorem getMovesForBoard_app (board : string)
    (ws1 ws2 : list WordStruct) :
  getMovesForBoard board (ws1 ++ ws2)
  = (m1 <- getMovesForBoard board ws1 ;;
     m2 <- getMovesForBoard board ws2 ;;
     Ok (m1 ++ m2)).
Proof. apply movesLoop_app. Qed.

(** Every move carries a word struct of the list it was made for. *)
Theorem getMovesForBoard_words (board : string)
    (wordStructs : list WordStruct) (moves : list Move) (move : Move) :
  getMovesForBoard board wordStructs = Ok moves ->
  In move moves -> In (fst move) wordStructs.
Proof.
  intros Hok Hin. destruct move as [w bitmap].
  apply (movesLoop_In _ _ _ _ _ Hok Hin).
Qed.

Lemma getMovesForBoard_words_witness :
  In (fst (word_cab, 13)) [word_cab].
Proof.
  apply (getMovesForBoard_words "abcb" [word_cab]
           [(word_cab, 7); (word_cab, 13)] (word_cab, 13)).
  - reflexivity.
  - simpl. tauto.
Defined.

(** ** What a move spells *)

Section Expand.

Lemma expand_keys h c : In c (expand h) -> In c (keys h).
Proof.
  unfold expand, keys. intros H.
  apply in_flat_map in H as (kv & Hkv & Hc).
  apply repeat_spec in Hc. subst c. apply in_map, Hkv.
Qed.

Lemma expand_countBy_add c h :
  Forall (fun kv => 1 <= snd kv) h ->
  Permutation (expand (countBy_add c h)) (c :: expand h).
Proof.
  unfold expand.
  induction 1 as [|[k n] h Hn Hall IH]; simpl; [reflexivity|].
  destruct (decide (k = c)) as [->|Hne]; simpl.
  - simpl in Hn. replace (Z.to_nat (n + 1)) with (S (Z.to_nat n)) by lia.
    reflexivity.
  - rewrite IH. symmetry. apply Permutation_middle.
Qed.

Lemma expand_countBy_fold l : forall h,
  Forall (fun kv => 1 <= snd kv) h ->
  Permutation (expand (fold_left (fun h c => countBy_add c h) l h))
              (l ++ expand h).
Proof.
  induction l as [|c l IH]; intros h Hpos; simpl; [reflexivity|].
  rewrite IH by (apply countBy_add_positive, Hpos).
  rewrite expand_countBy_add by assumption.
  symmetry. apply Permutation_middle.
Qed.

(** Written out, the histogram of a word is the word, in some order. *)
Lemma expand_countBy letters :
  Permutation (expand (forIn (countBy letters)))
              (list_ascii_of_string letters).
Proof.
  transitivity (expand (countBy letters)).
  - unfold expand. apply Permutation_flat_map, forIn_Permutation.
  - unfold countBy. rewrite expand_countBy_fold by constructor.
    simpl. rewrite app_nil_r. reflexivity.
Qed.

Lemma expand_count h c n :
  List.NoDup (keys h) -> In (c, n) h ->
  count_occ ascii_dec (expand h) c = Z.to_nat n.
Proof.
  unfold expand.
  induction h as [|[k m] h IH]; intros Hnd Hin; [destruct Hin|].
  simpl in Hnd. apply List.NoDup_cons_iff in Hnd as [Hk Hnd].
  cbn [flat_map fst snd]. rewrite count_occ_app.
  destruct Hin as [Heq|Hin].
  - injection Heq as -> ->. rewrite count_occ_repeat_eq by reflexivity.
    rewrite (proj1 (count_occ_not_In ascii_dec _ c)); [lia|].
    intros Hc. apply Hk. apply expand_keys, Hc.
  - rewrite count_occ_repeat_neq.
    + rewrite IH by assumption. reflexivity.
    + intros ->. apply Hk. unfold keys. apply List.in_map_iff.
      exists (k, n). split; [reflexivity|exact Hin].
Qed.

Lemma countBy_count letters c n :
  In (c, n) (forIn (countBy letters)) ->
  1 <= n
  /\ Z.to_nat n = count_occ ascii_dec (list_ascii_of_string letters) c.
Proof.
  intros Hin. destruct (forIn_histogram letters) as (Hnd & Hpos & _).
  split.
  - rewrite List.Forall_forall in Hpos. apply (Hpos _ Hin).
  - rewrite <- (expand_count _ c n Hnd Hin).
    apply Permutation_count_occ, expand_countBy.
Qed.

End Expand.

Section Groups.

(** What [posCombosLoop] collects: for every letter of the histogram, in
    order, the combinations of its squares. *)
Lemma posCombosLoop_kc boardPositionMap letterCounts : forall posCombos,
  posCombosLoop boardPositionMap letterCounts = Ok posCombos ->
  Forall (fun kv => 1 <= snd kv) letterCounts ->
  Forall2 (fun kv g => exists l, boardPositionMap !! fst kv = Some l
                                 /\ g = kc (snd kv) l 0)
          letterCounts posCombos.
Proof.
  induction letterCounts as [|[c n] rest IH]; intros posCombos Hok Hpos;
    simpl in Hok.
  - injection Hok as <-. constructor.
  - inversion Hpos as [|? ? Hn Hrest]; subst. simpl in Hn.
    unfold kCombinations in Hok.
    destruct (Z.eqb_spec n 0) as [|_]; [lia|].
    destruct (boardPositionMap !! c) as [l|] eqn:Hc; [|discriminate].
    simpl in Hok.
    destruct (posCombosLoop boardPositionMap rest) as [more|];
      [|discriminate].
    simpl in Hok. injection Hok as <-.
    constructor; [|apply IH; [reflexivity|assumption]].
    exists l. split; [exact Hc|reflexivity].
Qed.

End Groups.

Section Spelling.

Variable board : list ascii.
Variable boardPositionMap : gmap ascii (list Z).

Hypothesis board_fits : (length board <= 31)%nat.
Hypothesis map_bits : forall c l,
  boardPositionMap !! c = Some l ->
  List.NoDup l /\ forall z, In z l -> bitAt board c z.

Lemma bits_squares c (s : list Z) :
  (forall z, In z s -> bitAt board c z) ->
  exists js : list nat,
    s = map bitOf js /\ Forall (fun j => nth_error board j = Some c) js.
Proof.
  induction s as [|z s IH]; intros Hs.
  - exists []. split; [reflexivity|constructor].
  - destruct IH as (js & -> & Hjs); [intros z' Hz'; apply Hs; now right|].
    destruct (Hs z ltac:(now left)) as (j & -> & Hj).
    exists (j :: js). split; [reflexivity|constructor; assumption].
Qed.

Lemma Forall2_In_l {A B} (R : A -> B -> Prop) l l' x :
  Forall2 R l l' -> In x l -> exists y, In y l' /\ R x y.
Proof.
  induction 1 as [|a b l l' Hab Hall IH]; intros Hx; [destruct Hx|].
  destruct Hx as [->|Hx].
  - exists b. split; [now left|exact Hab].
  - destruct (IH Hx) as (y & Hy & Hxy). exists y. split; [now right|exact Hxy].
Qed.

Lemma Forall2_repeat (js : list nat) c :
  Forall (fun j => nth_error board j = Some c) js ->
  Forall2 (fun j c' => nth_error board j = Some c') js (repeat c (length js)).
Proof. induction 1; simpl; constructor; assumption. Qed.

(** The masks chosen for the letters of a histogram are or-ed into the
    bits of distinct squares that hold, in order, the histogram written
    out. *)
Lemma choice_squares letterCounts choice :
  List.NoDup (keys letterCounts) ->
  Forall (fun kv => 1 <= snd kv) letterCounts ->
  Forall2 (fun kv x => exists l, boardPositionMap !! fst kv = Some l
                                 /\ In x (kc (snd kv) l 0))
          letterCounts choice ->
  exists squares : list nat,
    List.NoDup squares
    /\ Forall2 (fun j c => nth_error board j = Some c)
               squares (expand letterCounts)
    /\ forall curr, 0 <= curr < 2 ^ 31 ->
         fold_left JS.bor choice curr
         = Z.lor curr (union (map bitOf squares)).
Proof.
  intros Hkeys Hpos Hall.
  induction Hall as [|[c n] x rest choice (l & Hl & Hx) Hall IH].
  - exists []. repeat split; [constructor|constructor|].
    intros curr _. simpl. rewrite Z.lor_0_r. reflexivity.
  - simpl in Hl, Hx, Hkeys.
    apply List.NoDup_cons_iff in Hkeys as [Hc Hkeys].
    inversion Hpos as [|? ? Hn Hrest]; subst. simpl in Hn.
    destruct (IH Hkeys Hrest) as (squares & Hnd & Hletters & Hfold).
    clear IH.
    apply map_bits in Hl as [Hlnd Hlbits].
    replace n with (Z.of_nat (S (Z.to_nat n - 1))) in Hx by lia.
    rewrite kc_combs in Hx.
    apply List.in_map_iff in Hx as (s & <- & Hs).
    apply combs_sublist in Hs as [Hsub Hslen].
    assert (Hsnd : List.NoDup s) by (eapply sublist_ListNoDup; eassumption).
    destruct (bits_squares c s) as (js & -> & Hjs).
    { intros z Hz. apply Hlbits. eapply sublist_In; eassumption. }
    assert (Hs31 : Forall (isBit 31) (map bitOf js)).
    { apply List.Forall_forall. intros z Hz.
      apply List.in_map_iff in Hz as (j & <- & Hj).
      rewrite List.Forall_forall in Hjs. apply Hjs in Hj.
      exists j. split; [|reflexivity].
      assert (j < length board)%nat by (apply nth_error_Some; congruence).
      lia. }
    rewrite length_map in Hslen.
    exists (js ++ squares). repeat split.
    + apply List.NoDup_app;
        [eapply NoDup_map_inv; exact Hsnd|exact Hnd|].
      intros j Hj1 Hj2.
      rewrite List.Forall_forall in Hjs. apply Hjs in Hj1.
      destruct (Forall2_In_l _ _ _ _ Hletters Hj2) as (c' & Hc' & Hj').
      apply Hc. apply expand_keys. congruence.
    + unfold expand. cbn [flat_map fst snd]. fold (expand rest).
      apply Forall2_app; [|exact Hletters].
      replace (Z.to_nat n) with (length js) by lia.
      apply Forall2_repeat, Hjs.
    + intros curr Hcurr. cbn [fold_left].
      rewrite (fold_bor_union (map bitOf js) 0) by (assumption || lia).
      rewrite Z.lor_0_l.
      pose proof (union_range 31 _ Hs31) as Hr.
      rewrite bor_small by assumption.
      rewrite Hfold by (apply (lor_range 31); assumption).
      rewrite map_app, union_app, Z.lor_assoc. reflexivity.
Qed.

Lemma flattenCombos_squares letterCounts posCombos m :
  List.NoDup (keys letterCounts) ->
  Forall (fun kv => 1 <= snd kv) letterCounts ->
  posCombosLoop boardPositionMap letterCounts = Ok posCombos ->
  In m (flattenCombos posCombos) ->
  exists squares : list nat,
    List.NoDup squares
    /\ Forall2 (fun j c => nth_error board j = Some c)
               squares (expand letterCounts)
    /\ m = union (map bitOf squares).
Proof.
  intros Hkeys Hpos Hok Hm.
  apply posCombosLoop_kc in Hok; [|assumption].
  apply pc_choice in Hm as (choice & Hchoice & ->).
  assert (Hall :
    Forall2 (fun kv x => exists l, boardPositionMap !! fst kv = Some l
                                   /\ In x (kc (snd kv) l 0))
            letterCounts choice).
  { clear Hkeys Hpos. revert choice Hchoice.
    induction Hok as [|kv g rest groups (l & Hl & ->) Hok IH];
      intros choice Hchoice; inversion Hchoice; subst; constructor.
    - exists l. split; assumption.
    - apply IH. assumption. }
  destruct (choice_squares letterCounts choice Hkeys Hpos Hall)
    as (squares & Hnd & Hletters & Hfold).
  exists squares. repeat split; [assumption..|].
  rewrite Hfold, Z.lor_0_l by lia. reflexivity.
Qed.

End Spelling.

(** On a board of at most 31 squares, the bitmap of every move is the
    set of distinct squares of the board whose letters are, in some
    order, the letters of the word. *)
Theorem getMovesForBoard_spells (board : string)
    (wordStructs : list WordStruct) (moves : list Move)
    (w : WordStruct) (bitmap : Z) :
  (String.length board <= 31)%nat ->
  getMovesForBoard board wordStructs = Ok moves ->
  In (w, bitmap) moves ->
  exists (squares : list nat) (letters : list ascii),
    List.NoDup squares
    /\ bitmap = union (map bitOf squares)
    /\ Forall2 (fun j c => nth_error (list_ascii_of_string board) j = Some c)
               squares letters
    /\ Permutation letters (list_ascii_of_string (ws_letters w)).
Proof.
  intros Hfits Hok Hin. unfold getMovesForBoard in Hok.
  destruct (movesLoop_In _ _ _ _ _ Hok Hin) as (_ & posCombos & Hpc & Hb).
  destruct (forIn_histogram (ws_letters w)) as (Hnd & Hpos & _).
  destruct (flattenCombos_squares (list_ascii_of_string board)
              (getBoardPositionMap board)
              ltac:(rewrite length_list_ascii; exact Hfits)
              (getBoardPositionMap_bits board)
              _ _ _ Hnd Hpos Hpc Hb) as (squares & Hsq & Hletters & ->).
  exists squares, (expand (forIn (countBy (ws_letters w)))).
  repeat split; [assumption..|apply expand_countBy].
Qed.

Lemma getMovesForBoard_spells_witness :
  exists (squares : list nat) (letters : list ascii),
    List.NoDup squares
    /\ 13 = union (map bitOf squares)
    /\ Forall2 (fun j c => nth_error (list_ascii_of_string "abcb") j = Some c)
               squares letters
    /\ Permutation letters (list_ascii_of_string (ws_letters word_cab)).
Proof.
  apply (getMovesForBoard_spells "abcb" [word_cab]
           [(word_cab, 7); (word_cab, 13)] word_cab 13).
  - simpl. lia.
  - reflexivity.
  - simpl. tauto.
Defined.

(** ** How many moves a word has *)

Section Counting.

Lemma product_Permutation l l' :
  Permutation l l' -> product l = product l'.
Proof. unfold product. induction 1; simpl; nia. Qed.

Lemma product_zero l : In 0%nat l -> product l = 0%nat.
Proof.
  unfold product. induction l as [|x l IH]; intros Hin; [destruct Hin|].
  simpl. destruct Hin as [->|Hin]; [reflexivity|].
  rewrite IH by assumption. lia.
Qed.

Lemma kc_length n l :
  1 <= n -> length (kc n l 0) = choose (length l) (Z.to_nat n).
Proof.
  intros Hn. replace n with (Z.of_nat (S (Z.to_nat n - 1))) at 1 by lia.
  rewrite kc_combs, length_map, combs_length. f_equal. lia.
Qed.

Lemma getBoardPositionMap_length board c l :
  getBoardPositionMap board !! c = Some l ->
  length l = count_occ ascii_dec (list_ascii_of_string board) c.
Proof.
  rewrite getBoardPositionMap_lookup. intros H.
  rewrite <- (letterBits_length c (list_ascii_of_string board) 0).
  destruct (letterBits c 0 (list_ascii_of_string board)); [discriminate|].
  injection H as <-. reflexivity.
Qed.

Lemma posCombos_count board letters posCombos :
  letters <> ""%string ->
  posCombosLoop (getBoardPositionMap board) (forIn (countBy letters))
  = Ok posCombos ->
  length (flattenCombos posCombos)
  = placements (list_ascii_of_string board) (list_ascii_of_string letters).
Proof.
  intros Hne Hok.
  destruct (forIn_histogram letters) as (Hnd & Hpos & Htotal).
  apply posCombosLoop_kc in Hok; [|assumption].
  assert (Hgroups : posCombos <> []).
  { intros ->. inversion Hok as [Hkeys|]. rewrite <- Hkeys in Htotal.
    unfold total in Htotal. simpl in Htotal.
    destruct letters; [contradiction|simpl in Htotal; lia]. }
  unfold flattenCombos. rewrite pc_cartesian by assumption.
  rewrite length_map, cartesian_length.
  set (factor := fun c =>
         choose (count_occ ascii_dec (list_ascii_of_string board) c)
                (count_occ ascii_dec (list_ascii_of_string letters) c)).
  assert (Hlens : map (@length Z) posCombos
                  = map factor (keys (forIn (countBy letters)))).
  { assert (Hcount := countBy_count letters).
    revert Hcount. clear Hnd Hpos Htotal Hgroups.
    induction Hok as [|[c n] g rest groups (l & Hl & ->) Hok IH];
      intros Hcount; [reflexivity|].
    simpl. f_equal.
    - destruct (Hcount c n ltac:(now left)) as [Hn Hocc].
      simpl in Hl. rewrite kc_length by assumption.
      unfold factor. rewrite <- Hocc.
      rewrite (getBoardPositionMap_length board c l Hl). reflexivity.
    - apply IH. intros c' n' Hin. apply Hcount. now right. }
  rewrite Hlens. unfold placements. apply product_Permutation.
  apply Permutation_map.
  apply Stdlib.Sorting.Permutation.NoDup_Permutation.
  - exact Hnd.
  - apply NoDup_nodup.
  - intros c. rewrite nodup_In.
    destruct (countBy_spec letters) as (_ & _ & _ & Hkeys).
    rewrite <- Hkeys. unfold keys.
    split; apply Permutation_in, Permutation_map;
      [apply forIn_Permutation|symmetry; apply forIn_Permutation].
Qed.

End Counting.

(** A word on its own gets as many moves as there are ways to choose, for
    each of its distinct letters, that many of the letter's squares; a
    word without letters gets none. *)
Theorem getMovesForBoard_count (board : string) (w : WordStruct)
    (moves : list Move) :
  getMovesForBoard board [w] = Ok moves ->
  length moves
  = match ws_letters w with
    | EmptyString => 0%nat
    | String _ _ =>
        placements (list_ascii_of_string board)
                   (list_ascii_of_string (ws_letters w))
    end.
Proof.
  unfold getMovesForBoard. cbn [movesLoop]. unfold movesForWord.
  destruct (posCombosLoop (getBoardPositionMap board)
              (forIn (countBy (ws_letters w)))) as [posCombos|] eqn:Hpc;
    [|discriminate].
  simpl. intros H. injection H as <-.
  rewrite app_nil_r, length_map.
  destruct (ws_letters w) as [|a s] eqn:Hletters.
  - vm_compute in Hpc. injection Hpc as <-. reflexivity.
  - rewrite <- Hletters in *. apply posCombos_count; [|exact Hpc].
    rewrite Hletters. discriminate.
Qed.

Lemma getMovesForBoard_count_witness :
  length [(word_cab, 7); (word_cab, 13)]
  = match ws_letters word_cab with
    | EmptyString => 0%nat
    | String _ _ =>
        placements (list_ascii_of_string "abcb")
                   (list_ascii_of_string (ws_letters word_cab))
    end.
Proof.
  apply (getMovesForBoard_count "abcb" word_cab). reflexivity.
Defined.

(** A word that needs a letter more often than the board has it gets no
    move, and no fault is raised for it. *)
Theorem getMovesForBoard_insufficient (board : string)
    (wordStructs : list WordStruct) (moves : list Move)
    (w : WordStruct) (c : ascii) (bitmap : Z) :
  getMovesForBoard board wordStructs = Ok moves ->
  (count_occ ascii_dec (list_ascii_of_string board) c
   < count_occ ascii_dec (list_ascii_of_string (ws_letters w)) c)%nat ->
  ~ In (w, bitmap) moves.
Proof.
  intros Hok Hless Hin. unfold getMovesForBoard in Hok.
  destruct (movesLoop_In _ _ _ _ _ Hok Hin) as (_ & posCombos & Hpc & Hb).
  assert (Hne : ws_letters w <> ""%string).
  { intros E. rewrite E in Hless. simpl in Hless. lia. }
  pose proof (posCombos_count board (ws_letters w) posCombos Hne Hpc) as Hlen.
  unfold placements in Hlen. rewrite product_zero in Hlen.
  - destruct (flattenCombos posCombos); [destruct Hb|discriminate].
  - apply List.in_map_iff. exists c. split.
    + apply choose_above, Hless.
    + apply nodup_In. apply (count_occ_In ascii_dec). lia.
Qed.

Lemma getMovesForBoard_insufficient_witness :
  ~ In ({| ws_word := "bob"; ws_letters := "abbb"; ws_freq := 3 |}, 7)
       [(word_cab, 7); (word_cab, 13)].
Proof.
  apply (getMovesForBoard_insufficient "abcb"
           [word_cab; {| ws_word := "bob"; ws_letters := "abbb";
                         ws_freq := 3 |}]
           [(word_cab, 7); (word_cab, 13)] _ "b"%char 7).
  - reflexivity.
  - simpl. lia.
Defined.

(** ** Every placement is generated *)

Section Completeness.

Lemma filter_sublist {A} (f : A -> bool) (l : list A) :
  List.filter f l `sublist_of` l.
Proof.
  induction l as [|x l IH]; simpl; [constructor|].
  destruct (f x); constructor; exact IH.
Qed.

Lemma union_ext n (X Y : list Z) :
  Forall (isBit n) X -> Forall (isBit n) Y ->
  (forall z, In z X <-> In z Y) -> union X = union Y.
Proof.
  intros HX HY Hsame. apply Z.bits_inj'. intros i Hi.
  replace i with (Z.of_nat (Z.to_nat i)) by lia.
  apply Bool.eq_true_iff_eq.
  rewrite (union_testbit n X), (union_testbit n Y) by assumption.
  apply Hsame.
Qed.

Lemma fold_bor_unions (groups : list (list Z)) : forall curr,
  Forall (Forall (isBit 31)) groups -> 0 <= curr < 2 ^ 31 ->
  fold_left JS.bor (map union groups) curr
  = Z.lor curr (union (concat groups)).
Proof.
  induction groups as [|s groups IH]; intros curr Hall Hcurr; simpl.
  - rewrite Z.lor_0_r. reflexivity.
  - inversion Hall as [|? ? Hs Hrest]; subst.
    pose proof (union_range 31 s Hs) as Hr.
    rewrite bor_small by assumption.
    rewrite IH; [|assumption|apply (lor_range 31); assumption].
    rewrite union_app, Z.lor_assoc. reflexivity.
Qed.

Lemma NoDup_map_bitOf (js : list nat) :
  List.NoDup js -> List.NoDup (map bitOf js).
Proof.
  induction 1 as [|j js Hj Hnd IH]; simpl; constructor; [|exact IH].
  intros Hin. apply List.in_map_iff in Hin as (j' & Heq & Hj').
  unfold bitOf in Heq. apply Z.pow_inj_r in Heq; [|lia..].
  apply Nat2Z.inj in Heq. subst j'. contradiction.
Qed.

Lemma letterBits_NoDup c board : forall i,
  List.NoDup (letterBits c i board).
Proof.
  induction board as [|x rest IH]; intros i; simpl; [constructor|].
  destruct (decide (x = c)); simpl; [|apply IH].
  constructor; [|apply IH].
  intros Hin. apply letterBits_In in Hin as (j & Heq & _).
  apply Z.pow_inj_r in Heq; lia.
Qed.

Variable board : list ascii.
Variable squares : list nat.
Variable letters : list ascii.

Hypothesis board_fits : (length board <= 31)%nat.
Hypothesis squares_NoDup : List.NoDup squares.
Hypothesis squares_letters :
  Forall2 (fun j c => nth_error board j = Some c) squares letters.

Lemma letter_count c : forall (sq : list nat) (ls : list ascii),
  Forall2 (fun j c' => nth_error board j = Some c') sq ls ->
  length (List.filter
            (fun j => bool_decide (nth_error board j = Some c)) sq)
  = count_occ ascii_dec ls c.
Proof.
  induction 1 as [|j c' sq ls Hj Hall IH]; [reflexivity|].
  simpl. rewrite Hj.
  destruct (ascii_dec c' c) as [->|Hne].
  - rewrite bool_decide_eq_true_2 by reflexivity. simpl. congruence.
  - rewrite bool_decide_eq_false_2 by congruence. exact IH.
Qed.

Lemma selection_In c z :
  In z (selection board squares c)
  <-> exists j, In j squares /\ nth_error board j = Some c /\ z = bitOf j.
Proof.
  unfold selection. rewrite filter_In, bool_decide_eq_true, list_elem_of_In.
  rewrite letterBits_In, List.in_map_iff. split.
  - intros [(j & -> & Hj) (j' & Heq & Hj')]. simpl in Heq.
    unfold bitOf in Heq. apply Z.pow_inj_r in Heq; [|lia..].
    apply Nat2Z.inj in Heq. subst j'.
    exists j. repeat split; assumption.
  - intros (j & Hj & Hc & ->). split.
    + exists j. split; [reflexivity|exact Hc].
    + exists j. split; [reflexivity|exact Hj].
Qed.

Lemma selection_length c :
  length (selection board squares c) = count_occ ascii_dec letters c.
Proof.
  rewrite <- (letter_count c squares letters squares_letters).
  rewrite <- (length_map bitOf).
  apply Permutation_length.
  apply Stdlib.Sorting.Permutation.NoDup_Permutation.
  - unfold selection. apply List.NoDup_filter, letterBits_NoDup.
  - apply NoDup_map_bitOf, List.NoDup_filter, squares_NoDup.
  - intros z. rewrite selection_In, List.in_map_iff. split.
    + intros (j & Hj & Hc & ->). exists j. split; [reflexivity|].
      apply filter_In. split; [exact Hj|].
      apply bool_decide_eq_true. exact Hc.
    + intros (j & <- & Hj). apply filter_In in Hj as [Hj Hc].
      apply bool_decide_eq_true in Hc.
      exists j. repeat split; assumption.
Qed.

Lemma selection_bits c : Forall (isBit 31) (selection board squares c).
Proof.
  apply List.Forall_forall. intros z Hz.
  apply selection_In in Hz as (j & _ & Hc & ->).
  exists j. split; [|reflexivity].
  assert (j < length board)%nat by (apply nth_error_Some; congruence).
  lia.
Qed.

Lemma letterBits_bits c : Forall (isBit 31) (letterBits c 0 board).
Proof.
  apply List.Forall_forall. intros z Hz.
  apply letterBits_In in Hz as (j & -> & Hc).
  exists j. split; [|reflexivity].
  assert (j < length board)%nat by (apply nth_error_Some; congruence).
  lia.
Qed.

(** The placement is the union of its selections, over any list of keys
    that holds all its letters. *)
Lemma selections_union (ks : list ascii) :
  (forall c, In c letters -> In c ks) ->
  union (concat (map (selection board squares) ks)) = union (map bitOf squares).
Proof.
  intros Hks. apply (union_ext 31).
  - apply List.Forall_forall. intros z Hz.
    apply in_concat in Hz as (s & Hs & Hz).
    apply List.in_map_iff in Hs as (c & <- & _).
    pose proof (selection_bits c) as Hbits.
    rewrite List.Forall_forall in Hbits. apply Hbits, Hz.
  - apply List.Forall_forall. intros z Hz.
    apply List.in_map_iff in Hz as (j & <- & Hj).
    destruct (Forall2_In_l _ _ _ _ squares_letters Hj) as (c & _ & Hc).
    exists j. split; [|reflexivity].
    assert (j < length board)%nat by (apply nth_error_Some; congruence).
    lia.
  - intros z. rewrite in_concat. split.
    + intros (s & Hs & Hz).
      apply List.in_map_iff in Hs as (c & <- & _).
      apply selection_In in Hz as (j & Hj & _ & ->).
      apply in_map, Hj.
    + intros Hz. apply List.in_map_iff in Hz as (j & <- & Hj).
      destruct (Forall2_In_l _ _ _ _ squares_letters Hj) as (c & Hc & Hjc).
      exists (selection board squares c). split.
      * apply in_map, Hks, Hc.
      * apply selection_In. exists j. repeat split; assumption.
Qed.

End Completeness.

Section CompleteGeneration.

Lemma movesLoop_member boardPositionMap wordStructs : forall moves w,
  movesLoop boardPositionMap wordStructs = Ok moves ->
  In w wordStructs ->
  exists posCombos,
    posCombosLoop boardPositionMap (forIn (countBy (ws_letters w)))
    = Ok posCombos
    /\ forall bitmap, In bitmap (flattenCombos posCombos) ->
                      In (w, bitmap) moves.
Proof.
  induction wordStructs as [|w' rest IH]; intros moves w Hok Hw;
    [destruct Hw|].
  simpl in Hok. unfold movesForWord in Hok.
  destruct (posCombosLoop boardPositionMap
              (forIn (countBy (ws_letters w')))) as [posCombos|] eqn:Hpc;
    [|discriminate].
  simpl in Hok.
  destruct (movesLoop boardPositionMap rest) as [more|]; [|discriminate].
  simpl in Hok. injection Hok as <-.
  destruct Hw as [->|Hw].
  - exists posCombos. split; [exact Hpc|].
    intros bitmap Hb. apply in_app_iff. left.
    apply in_map with (f := fun b => (w, b)), Hb.
  - destruct (IH more w eq_refl Hw) as (pcs & Hpcs & Hall).
    exists pcs. split; [exact Hpcs|].
    intros bitmap Hb. apply in_app_iff. right. apply Hall, Hb.
Qed.

End CompleteGeneration.

(** [getMovesForBoard] misses no placement: on a board of at most 31
    squares, for a word of the list and any distinct squares whose letters
    are, in some order, the letters of the word, the move of the word on
    these squares is among the moves. *)
Theorem getMovesForBoard_complete (board : string)
    (wordStructs : list WordStruct) (moves : list Move) (w : WordStruct)
    (squares : list nat) (letters : list ascii) :
  (String.length board <= 31)%nat ->
  getMovesForBoard board wordStructs = Ok moves ->
  In w wordStructs ->
  List.NoDup squares ->
  Forall2 (fun j c => nth_error (list_ascii_of_string board) j = Some c)
          squares letters ->
  Permutation letters (list_ascii_of_string (ws_letters w)) ->
  squares <> [] ->
  In (w, union (map bitOf squares)) moves.
Proof.
  intros Hfits Hok Hw Hnd Hletters Hperm Hne.
  unfold getMovesForBoard in Hok.
  destruct (movesLoop_member _ _ _ _ Hok Hw) as (posCombos & Hpc & Hmoves).
  apply Hmoves. clear Hmoves Hok Hw moves wordStructs.
  set (B := list_ascii_of_string board) in *.
  assert (HB : (length B <= 31)%nat)
    by (subst B; rewrite length_list_ascii; exact Hfits).
  set (letterCounts := forIn (countBy (ws_letters w))) in *.
  destruct (forIn_histogram (ws_letters w)) as (Hkeys & Hpos & _).
  fold letterCounts in Hkeys, Hpos.
  assert (Hin_keys : forall c, In c letters -> In c (keys letterCounts)).
  { intros c Hc. apply (Permutation_in _ Hperm) in Hc.
    destruct (countBy_spec (ws_letters w)) as (_ & _ & _ & Hk).
    apply Hk in Hc. unfold keys in *.
    eapply Permutation_in; [|exact Hc].
    apply Permutation_map. symmetry. apply forIn_Permutation. }
  assert (Hcount : forall c n, In (c, n) letterCounts ->
            n = Z.of_nat (length (selection B squares c))
            /\ selection B squares c <> []).
  { intros c n Hin. destruct (countBy_count _ _ _ Hin) as [Hn Hocc].
    pose proof (selection_length B squares letters HB Hnd Hletters c) as Hlen.
    rewrite (proj1 (Permutation_count_occ ascii_dec _ _) Hperm c), <- Hocc
      in Hlen.
    split; [lia|]. intros E. rewrite E in Hlen. simpl in Hlen. lia. }
  apply posCombosLoop_kc in Hpc; [|exact Hpos].
  set (choice := map (fun c => union (selection B squares c))
                     (keys letterCounts)).
  assert (Hchoice : Forall2 (fun g x => In x g) posCombos choice).
  { subst choice. clear Hkeys Hpos Hin_keys.
    induction Hpc as [|[c n] g rest groups (l & Hl & ->) Hpc IH];
      simpl; constructor.
    - simpl in Hl. destruct (Hcount c n ltac:(now left)) as [-> Hsel].
      rewrite getBoardPositionMap_lookup in Hl. fold B in Hl.
      assert (l = letterBits c 0 B) as ->.
      { destruct (letterBits c 0 B); [discriminate|congruence]. }
      apply kc_complete; [apply letterBits_bits, HB| |exact Hsel].
      apply filter_sublist.
    - apply IH. intros c' n' Hin. apply Hcount. now right. }
  assert (Hgroups : posCombos <> []).
  { intros ->. inversion Hpc as [Hk|]. 
    destruct squares as [|j sq]; [contradiction|].
    inversion Hletters as [|? c ? ? _ _]; subst.
    specialize (Hin_keys c ltac:(now left)).
    rewrite <- Hk in Hin_keys. destruct Hin_keys. }
  unfold flattenCombos. rewrite pc_cartesian by assumption.
  apply List.in_map_iff. exists choice. split; [|apply cartesian_In, Hchoice].
  subst choice. rewrite <- map_map with (g := union).
  rewrite fold_bor_unions; [|
    apply List.Forall_forall; intros s Hs;
    apply List.in_map_iff in Hs as (c & <- & _);
    apply (selection_bits B squares HB) |lia].
  rewrite Z.lor_0_l.
  apply (selections_union B squares letters HB Hletters).
  exact Hin_keys.
Qed.

Lemma getMovesForBoard_complete_witness :
  In (word_cab, union (map bitOf [3; 0; 2]%nat))
     [(word_cab, 7); (word_cab, 13)].
Proof.
  apply (getMovesForBoard_complete "abcb" [word_cab]
           [(word_cab, 7); (word_cab, 13)] word_cab [3; 0; 2]%nat
           ["b"; "a"; "c"]%char).
  - simpl. lia.
  - reflexivity.
  - simpl. tauto.
  - repeat constructor; simpl; intuition discriminate.
  - repeat constructor.
  - simpl. apply perm_trans with ["a"; "b"; "c"]%char.
    + apply perm_swap.
    + apply perm_trans with ["a"; "c"; "b"]%char.
      * apply perm_skip, perm_swap.
      * apply perm_swap.
  - discriminate.
Defined.

(** ** No placement twice *)

Section Distinct.

Lemma NoDup_flat_map {A B} (f : A -> list B) (l : list A) :
  List.NoDup l ->
  (forall x, In x l -> List.NoDup (f x)) ->
  (forall x y z, In x l -> In y l -> In z (f x) -> In z (f y) -> x = y) ->
  List.NoDup (flat_map f l).
Proof.
  induction 1 as [|x l Hx Hnd IH]; intros Hin Hcross; simpl; [constructor|].
  apply List.NoDup_app.
  - apply Hin. now left.
  - apply IH.
    + intros y Hy. apply Hin. now right.
    + intros y y' z Hy Hy'. apply Hcross; now right.
  - intros z Hz1 Hz2. apply in_flat_map in Hz2 as (y & Hy & Hz2).
    apply Hx. rewrite (Hcross x y z); auto; [now left|now right].
Qed.

Lemma map_flat_map_cons {A} (F : list A -> Z) (g : list A)
    (rest : list (list A)) :
  map F (flat_map (fun o => map (cons o) rest) g)
  = flat_map (fun o => map (fun ch => F (o :: ch)) rest) g.
Proof.
  induction g as [|o g IH]; simpl; [reflexivity|].
  rewrite map_app, map_map, IH. reflexivity.
Qed.

Variable board : list ascii.
Variable boardPositionMap : gmap ascii (list Z).

Hypothesis board_fits : (length board <= 31)%nat.
Hypothesis map_bits : forall c l,
  boardPositionMap !! c = Some l ->
  List.NoDup l /\ forall z, In z l -> bitAt board c z.

(** The masks of one letter: distinct, and each made of squares of that
    letter only. *)
Lemma group_masks c n l :
  boardPositionMap !! c = Some l -> 1 <= n ->
  List.NoDup (kc n l 0)
  /\ forall o, In o (kc n l 0) ->
       0 <= o < 2 ^ 31
       /\ forall j : nat, Z.testbit o (Z.of_nat j) = true ->
                          nth_error board j = Some c.
Proof.
  intros Hl Hn. apply map_bits in Hl as [Hnd Hbits].
  assert (Hl31 : Forall (isBit 31) l).
  { apply List.Forall_forall. intros z Hz.
    apply isBit_mono with (length board); [exact board_fits|].
    eapply bitAt_isBit, Hbits, Hz. }
  replace n with (Z.of_nat (S (Z.to_nat n - 1))) by lia.
  rewrite kc_combs.
  assert (Hmasks :
    map (fun s => fold_left JS.bor s 0) (combs (S (Z.to_nat n - 1)) l)
    = map (fun s => Z.lor 0 (union s)) (combs (S (Z.to_nat n - 1)) l)).
  { apply map_ext_in. intros s Hs. apply combs_sublist in Hs as [Hsub _].
    apply fold_bor_union; [|lia]. eapply sublist_Forall; eassumption. }
  rewrite Hmasks. split.
  - apply combs_masks_NoDup; [assumption..|]. intros i _. apply Z.bits_0.
  - intros o Ho. apply List.in_map_iff in Ho as (s & <- & Hs).
    apply combs_sublist in Hs as [Hsub _]. rewrite Z.lor_0_l.
    assert (Hs31 : Forall (isBit 31) s)
      by (eapply sublist_Forall; eassumption).
    split; [apply (union_range 31), Hs31|].
    intros j Hj. apply (union_testbit 31) in Hj; [|exact Hs31].
    apply (sublist_In _ _ _ Hsub), Hbits in Hj.
    destruct Hj as (j' & Heq & Hc).
    apply Z.pow_inj_r in Heq; [|lia..].
    apply Nat2Z.inj in Heq. subst j'. exact Hc.
Qed.

Lemma choice_link letterCounts groups choice :
  Forall2 (fun kv g => exists l, boardPositionMap !! fst kv = Some l
                                 /\ g = kc (snd kv) l 0)
          letterCounts groups ->
  Forall2 (fun g x => In x g) groups choice ->
  Forall2 (fun kv x => exists l, boardPositionMap !! fst kv = Some l
                                 /\ In x (kc (snd kv) l 0))
          letterCounts choice.
Proof.
  intros Hgroups. revert choice.
  induction Hgroups as [|kv g rest groups (l & Hl & ->) Hok IH];
    intros choice Hchoice; inversion Hchoice; subst; constructor.
  - exists l. split; assumption.
  - apply IH. assumption.
Qed.

Lemma cartesian_masks_NoDup letterCounts groups :
  Forall2 (fun kv g => exists l, boardPositionMap !! fst kv = Some l
                                 /\ g = kc (snd kv) l 0)
          letterCounts groups ->
  List.NoDup (keys letterCounts) ->
  Forall (fun kv => 1 <= snd kv) letterCounts ->
  forall curr,
    0 <= curr < 2 ^ 31 ->
    (forall (j : nat) c, In c (keys letterCounts) ->
                         nth_error board j = Some c ->
                         Z.testbit curr (Z.of_nat j) = false) ->
    List.NoDup (map (fun ch => fold_left JS.bor ch curr) (cartesian groups)).
Proof.
  induction 1 as [|[c n] g rest groups (l & Hl & ->) Hgroups IH];
    intros Hkeys Hpos curr Hcurr Hfree.
  - simpl. constructor; [simpl; tauto|constructor].
  - simpl in Hl, Hkeys.
    apply List.NoDup_cons_iff in Hkeys as [Hc Hkeys].
    inversion Hpos as [|? ? Hn Hrest]; subst. simpl in Hn.
    destruct (group_masks c n l Hl Hn) as [Hgnd Hgbits].
    cbn [cartesian]. rewrite map_flat_map_cons. cbn [fold_left].
    assert (Hfree_c : forall j : nat, nth_error board j = Some c ->
                        Z.testbit curr (Z.of_nat j) = false).
    { intros j Hj. apply (Hfree j c); [now left|exact Hj]. }
    assert (Hmask : forall o ch,
      In o (kc n l 0) -> In ch (cartesian groups) ->
      0 <= Z.lor curr o < 2 ^ 31
      /\ JS.bor curr o = Z.lor curr o
      /\ forall j : nat, nth_error board j = Some c ->
           Z.testbit (fold_left JS.bor ch (JS.bor curr o)) (Z.of_nat j)
           = Z.testbit o (Z.of_nat j)).
    { intros o ch Ho Hch. destruct (Hgbits o Ho) as [Ho31 Hobits].
      assert (Hr : 0 <= Z.lor curr o < 2 ^ 31)
        by (apply (lor_range 31); assumption).
      split; [exact Hr|]. split; [apply bor_small; assumption|].
      intros j Hj. rewrite bor_small by assumption.
      apply cartesian_In in Hch.
      destruct (choice_union board boardPositionMap board_fits map_bits
                  rest ch Hkeys Hrest (choice_link _ _ _ Hgroups Hch))
        as (bits & _ & Hbits & _ & Hfold).
      rewrite Hfold by exact Hr.
      rewrite !Z.lor_spec, (Hfree_c j Hj). simpl.
      destruct (Z.testbit (union bits) (Z.of_nat j)) eqn:Hb;
        [|apply orb_false_r].
      exfalso. apply (union_testbit (length board)) in Hb.
      - apply Hbits in Hb as (c' & Hc' & j' & Heq & Hj').
        apply Z.pow_inj_r in Heq; [|lia..].
        apply Nat2Z.inj in Heq. subst j'. congruence.
      - apply List.Forall_forall. intros z Hz.
        apply Hbits in Hz as (c' & _ & Hz). eapply bitAt_isBit, Hz. }
    apply NoDup_flat_map; [exact Hgnd| |].
    + intros o Ho.
      destruct (Hgbits o Ho) as [Ho31 Hobits].
      assert (Hr : 0 <= Z.lor curr o < 2 ^ 31)
        by (apply (lor_range 31); assumption).
      rewrite bor_small by assumption.
      apply IH; [assumption..|].
      intros j c' Hc' Hj. rewrite Z.lor_spec.
      rewrite (Hfree j c') by (try right; assumption). simpl.
      destruct (Z.testbit o (Z.of_nat j)) eqn:Hb; [|reflexivity].
      apply Hobits in Hb. congruence.
    + intros o o' z Ho Ho' Hz Hz'.
      apply List.in_map_iff in Hz as (ch & <- & Hch).
      apply List.in_map_iff in Hz' as (ch' & Heq & Hch').
      destruct (Hgbits o Ho) as [Ho31 Hobits].
      destruct (Hgbits o' Ho') as [Ho31' Hobits'].
      apply Z.bits_inj'. intros i Hi.
      replace i with (Z.of_nat (Z.to_nat i)) by lia.
      set (j := Z.to_nat i).
      destruct (Z.testbit o (Z.of_nat j)) eqn:Hb.
      * pose proof (Hobits j Hb) as Hj.
        destruct (Hmask o ch Ho Hch) as (_ & _ & Hbit).
        destruct (Hmask o' ch' Ho' Hch') as (_ & _ & Hbit').
        rewrite <- (Hbit' j Hj), Heq, (Hbit j Hj). symmetry. exact Hb.
      * destruct (Z.testbit o' (Z.of_nat j)) eqn:Hb'; [|reflexivity].
        pose proof (Hobits' j Hb') as Hj.
        destruct (Hmask o ch Ho Hch) as (_ & _ & Hbit).
        destruct (Hmask o' ch' Ho' Hch') as (_ & _ & Hbit').
        rewrite <- Hb, <- (Hbit j Hj), <- Heq, (Hbit' j Hj). exact Hb'.
Qed.

Lemma flattenCombos_NoDup letterCounts posCombos :
  List.NoDup (keys letterCounts) ->
  Forall (fun kv => 1 <= snd kv) letterCounts ->
  posCombosLoop boardPositionMap letterCounts = Ok posCombos ->
  List.NoDup (flattenCombos posCombos).
Proof.
  intros Hkeys Hpos Hok.
  apply posCombosLoop_kc in Hok; [|assumption].
  destruct posCombos as [|g rest]; [constructor|].
  unfold flattenCombos. rewrite pc_cartesian by discriminate.
  apply (cartesian_masks_NoDup letterCounts); [assumption..|lia|].
  intros j c _ _. apply Z.bits_0.
Qed.

End Distinct.

(** On a board of at most 31 squares, [getMovesForBoard] returns no move
    twice when no word struct is twice in the list: the placements of a
    word are pairwise different bitmaps. *)
Theorem getMovesForBoard_NoDup (board : string)
    (wordStructs : list WordStruct) (moves : list Move) :
  (String.length board <= 31)%nat ->
  List.NoDup wordStructs ->
  getMovesForBoard board wordStructs = Ok moves ->
  List.NoDup moves.
Proof.
  intros Hfits Hws. unfold getMovesForBoard. revert moves.
  induction Hws as [|w rest Hw Hws IH]; intros moves Hok; simpl in Hok.
  - injection Hok as <-. constructor.
  - unfold movesForWord in Hok.
    destruct (posCombosLoop (getBoardPositionMap board)
                (forIn (countBy (ws_letters w)))) as [posCombos|] eqn:Hpc;
      [|discriminate].
    simpl in Hok.
    destruct (movesLoop (getBoardPositionMap board) rest) as [more|] eqn:Hmore;
      [|discriminate].
    simpl in Hok. injection Hok as <-.
    destruct (forIn_histogram (ws_letters w)) as (Hnd & Hpos & _).
    apply List.NoDup_app.
    + assert (Hmasks : List.NoDup (flattenCombos posCombos)).
      { apply (flattenCombos_NoDup (list_ascii_of_string board)
                 (getBoardPositionMap board)
                 ltac:(rewrite length_list_ascii; exact Hfits)
                 (getBoardPositionMap_bits board) _ _ Hnd Hpos Hpc). }
      induction Hmasks as [|b bs Hb Hbs IHb]; simpl; constructor; [|exact IHb].
      intros Hin. apply List.in_map_iff in Hin as (b' & Heq & Hb').
      injection Heq as ->. contradiction.
    + apply IH. reflexivity.
    + intros [w' b] Hin1 Hin2.
      apply List.in_map_iff in Hin1 as (b' & Heq & _). injection Heq as <- <-.
      apply Hw. apply (movesLoop_In _ _ _ _ _ Hmore Hin2).
Qed.

Lemma getMovesForBoard_NoDup_witness :
  List.NoDup [(word_cab, 7); (word_cab, 13)].
Proof.
  apply (getMovesForBoard_NoDup "abcb" [word_cab]).
  - simpl. lia.
  - constructor; [simpl; tauto|constructor].
  - reflexivity.
Defined.

(** ** When nothing is returned *)

Section EmptyResult.

Lemma filterLoop_start_nil l :
  filterLoop 0 ∅ l = []
  <-> Forall (fun m => scoreOf m = 0 \/ In (wordOf m) objectPrototypeKeys) l.
Proof.
  induction l as [|x l IH].
  - simpl. split; [constructor|reflexivity].
  - cbn [filterLoop]. unfold seenTruthy.
    rewrite (bool_decide_eq_false_2
               (ws_word (wordStruct x) ∈ (∅ : gset string)))
      by apply not_elem_of_empty.
    cbn [orb].
    destruct (bool_decide (ws_word (wordStruct x) ∈ objectPrototypeKeys))
      eqn:Hproto; cbn [orb].
    + apply bool_decide_eq_true in Hproto.
      apply (proj1 (list_elem_of_In _ _)) in Hproto.
      rewrite IH. split.
      * intros H. constructor; [right; exact Hproto|exact H].
      * intros H. inversion H; assumption.
    + apply bool_decide_eq_false in Hproto.
      destruct (Z.eqb_spec (protectedDiff x + countDiff x) 0) as [H0|Hne].
      * rewrite IH. split.
        -- intros H. constructor; [left; exact H0|exact H].
        -- intros H. inversion H; assumption.
      * split; [discriminate|].
        intros H. inversion H as [|? ? [Hx|Hx] _]; subst.
        -- contradiction.
        -- exfalso. apply Hproto, list_elem_of_In, Hx.
Qed.

End EmptyResult.

(** [getTopMoves] returns no entry exactly when every move it was given
    scores a total [protectedDiff + countDiff] of 0 or has a word text that
    is an inherited property name: moves with the total 0 are never shown
    before a move with another total. *)
Theorem getTopMoves_nil lpConfig moves oursBitMask theirsBitMask :
  getTopMoves lpConfig moves oursBitMask theirsBitMask = []
  <-> forall move, In move moves ->
        scoreOf (scoreMove lpConfig oursBitMask theirsBitMask move) = 0
        \/ In (ws_word (fst move)) objectPrototypeKeys.
Proof.
  unfold getTopMoves, topScoredMoves, filterMoves.
  set (scored := map (scoreMove lpConfig oursBitMask theirsBitMask) moves).
  assert (Hnil : map toTopMove (firstn 19 (filterLoop 0 ∅ (sort byBestMove scored)))
                 = []
                 <-> filterLoop 0 ∅ (sort byBestMove scored) = []).
  { destruct (filterLoop 0 ∅ (sort byBestMove scored)); simpl.
    - tauto.
    - split; discriminate. }
  rewrite Hnil, filterLoop_start_nil, List.Forall_forall. split.
  - intros H move Hmove.
    apply (H (scoreMove lpConfig oursBitMask theirsBitMask move)).
    apply sort_In. subst scored. apply in_map, Hmove.
  - intros H m Hm. apply sort_In in Hm. subst scored.
    apply List.in_map_iff in Hm as (move & <- & Hmove).
    apply (H move Hmove).
Qed.

Lemma getTopMoves_nil_witness :
  scoreOf (scoreMove boardConfig 0 1 (word_cab, 2)) = 0
  \/ In (ws_word (fst (word_cab, 2))) objectPrototypeKeys.
Proof.
  apply (getTopMoves_nil boardConfig [(word_cab, 2)] 0 1).
  - vm_compute. reflexivity.
  - simpl. tauto.
Defined.
